(** * go-aravis, examples/get_image: a camera feed served over HTTP

    A shallow embedding of [examples/get_image/main.go].  The file holds two
    programs of package main: the one-shot server, whose handler grabs one
    frame per request and encodes it into the response, and the live server,
    whose [cameraThread] keeps a double-buffered PNG payload up to date
    while [servePNG] hands the published payload to HTTP clients.

    What the Go runtime and the libraries do is kept to the part the
    program relies on: byte slices live in a store indexed by locations,
    float64 values are IEEE-754 binary64 values ([spec_float]), mutex
    operations, device calls, log lines and response writes are recorded as
    events of a trace, and everything the outside world decides (what the
    device delivers, what the encoder writes, how a string parses) is an
    argument of the embedded function. *)

From Stdlib Require Import ZArith List Lia Floats.SpecFloat Strings.Byte.
From Stdlib Require Import DecimalNat DecimalString.
From stdpp Require Import base gmap list strings.

Local Open Scope string_scope.
Local Open Scope list_scope.

(** ** The Go runtime, as far as the program uses it *)

Module Go.

(** float64 with Go's [==] and [!=]: a NaN differs from everything,
    itself included, and the two zeros are equal. *)
Definition float64 : Type := spec_float.

Definition float_ne (x y : float64) : bool := negb (SFeqb x y).

Definition float64_of_Z (z : Z) : float64 := binary_normalize 53 1024 z 0 false.

Definition is_nan (x : float64) : bool :=
  match x with S754_nan => true | _ => false end.

(** Go's [error]: nil or a message. *)
Definition error : Type := option string.

(** Byte slices.  A slice value is nil or a reference to backing storage
    in the store; two slice values with the same location alias. *)
Definition loc : Type := positive.
Definition slice : Type := option loc.
Abbreviation heap := (gmap loc (list byte)).

Definition bytes_of (h : heap) (s : slice) : list byte :=
  match s with
  | None => []
  | Some l => default [] (h !! l)
  end.

(** [make([]byte, n)]: storage that no live slice refers to, zeroed. *)
Definition make (n : nat) (h : heap) : loc * heap :=
  let l := fresh (dom h) in (l, <[l := replicate n x00]> h).

(** [copy(dst, src)]: overwrites the first [min (len dst) (len src)]
    bytes of the storage of [dst], in place. *)
Definition copy (dst : loc) (src : list byte) (h : heap) : heap :=
  match h !! dst with
  | Some d => <[dst := take (length d) src ++ drop (length src) d]> h
  | None => h
  end.

End Go.

Import Go.

(** ** Events *)

(** The three mutexes of the live server: the package-level [mu], [is.mu]
    and [is.out.mu]. *)
Inductive mutex := Mu | IsMu | OutMu.

#[global] Instance mutex_eq_dec : EqDecision mutex.
Proof. solve_decision. Defined.

(** A buffer handle as the stream hands it out.  [None] is the empty handle
    that [TimeoutPopBuffer] returns when no buffer became ready. *)
Inductive BufferStatus := Success | Timeout | DeviceStatusError.

#[global] Instance BufferStatus_eq_dec : EqDecision BufferStatus.
Proof. solve_decision. Defined.

Record Buffer := mkBuffer {
  buf_id : nat;
  buf_status : BufferStatus;
  buf_data : list byte
}.

Definition BufferHandle : Type := option Buffer.

Inductive event :=
| EvLock (m : mutex)
| EvUnlock (m : mutex)
| EvPop (b : BufferHandle)
| EvPush (b : BufferHandle)
| EvStartAcquisition
| EvStopAcquisition
| EvStreamClose
| EvSetGain (g : float64)
| EvSetExposureTime (e : float64)
| EvLog (s : string)
| EvWrite (bs : list byte).

Definition pushes (tr : list event) : list BufferHandle :=
  omap (fun e => match e with EvPush b => Some b | _ => None end) tr.
Definition pops (tr : list event) : list BufferHandle :=
  omap (fun e => match e with EvPop b => Some b | _ => None end) tr.
Definition gain_calls (tr : list event) : list float64 :=
  omap (fun e => match e with EvSetGain g => Some g | _ => None end) tr.
Definition exposure_calls (tr : list event) : list float64 :=
  omap (fun e => match e with EvSetExposureTime g => Some g | _ => None end) tr.
Definition log_lines (tr : list event) : list string :=
  omap (fun e => match e with EvLog s => Some s | _ => None end) tr.

(** ** The aravis stream *)

Module Aravis.

(** What the device does during one [TimeoutPopBuffer]: nothing ready
    within the timeout, or a buffer filled with a status and data. *)
Record Frame := mkFrame {
  fr_status : BufferStatus;
  fr_data : list byte
}.

(** Modelled from the spec: the stream of the aravis binding
    ([TimeoutPopBuffer], [PushBuffer], [GetStatus], [GetData]), whose Go
    source is not part of the example.  The stream owns a finite pool of
    acquisition buffers; [acquireNext] lends one out with a status, and
    [recycle] returns it.  When nothing is ready the handle is empty, and
    recycling the empty handle returns nothing to the pool. *)
Record Stream := mkStream { pool : list nat }.

Definition TimeoutPopBuffer (ready : option Frame) (s : Stream)
  : BufferHandle * Stream :=
  match ready, pool s with
  | Some f, i :: rest =>
      (Some (mkBuffer i (fr_status f) (fr_data f)), mkStream rest)
  | _, _ => (None, s)
  end.

Definition PushBuffer (b : BufferHandle) (s : Stream) : Stream :=
  match b with
  | Some b => mkStream (pool s ++ [buf_id b])
  | None => s
  end.

(** [aravis.NewBuffer(size)]: a buffer that has not been filled has no
    data and a status other than Success. *)
Definition NewBuffer (i : nat) : BufferHandle :=
  Some (mkBuffer i DeviceStatusError []).

Definition GetStatus (b : BufferHandle) : BufferStatus :=
  match b with
  | Some b => buf_status b
  | None => Timeout
  end.

Definition GetData (b : BufferHandle) : list byte :=
  match b with
  | Some b => buf_data b
  | None => []
  end.

End Aravis.

Import Aravis.

(** ** image and image/png *)

(** [image.Gray] as the program builds it: a rectangle from the origin and
    the pixel bytes. *)
Record Gray := mkGray {
  Pix : list byte;
  Dx : Z;
  Dy : Z
}.

(** [png.Encoder.Encode(w, img)]: the bytes it writes to [w], and the error
    it returns.  The encoder is an argument of the program's functions; its
    writer interface lets it write before it fails. *)
Record Encoder := mkEncoder {
  Encode : Gray -> list byte * error
}.

(** [png.Encoder.Encode] when its writer is a [*bytes.Buffer], which is how
    [cameraThread] calls it.  The size check comes before the first write
    and is the only error: a [bytes.Buffer] never refuses a write, so no
    error can come back once bytes have been written.  The bytes of a
    well-sized image are an argument. *)
Definition bufferEncoder (compress : Gray -> list byte) : Encoder :=
  mkEncoder (fun img =>
    if ((Dx img <=? 0) || (Dy img <=? 0) || (2 ^ 32 <=? Dx img) || (2 ^ 32 <=? Dy img))%Z
    then ([], Some "png: invalid format: invalid image size")
    else (compress img, None)).

(** ** net/http, as far as the handlers use it *)

Module Http.

(** [http.Request]: whether its context is already done, and the form
    values in the order they were sent. *)
Record Request := mkRequest {
  req_done : bool;
  req_form : list (string * string)
}.

(** [r.FormValue(key)]: the first value of the key, the empty string when
    the key is absent. *)
Fixpoint FormValue (form : list (string * string)) (key : string) : string :=
  match form with
  | [] => ""
  | (k, v) :: rest => if String.eqb k key then v else FormValue rest key
  end.

(** [http.ResponseWriter]: the status line once it has been sent, the
    content type an error reply sets, and the body written so far. *)
Record ResponseWriter := mkResponseWriter {
  rw_status : option nat;
  rw_contentType : option string;
  rw_body : list byte
}.

Definition newResponse : ResponseWriter := mkResponseWriter None None [].

Definition StatusOK : nat := 200.
Definition StatusInternalServerError : nat := 500.

(** [w.WriteHeader(code)]: only the first call sends a status line. *)
Definition WriteHeader (code : nat) (w : ResponseWriter) : ResponseWriter :=
  match rw_status w with
  | None => mkResponseWriter (Some code) (rw_contentType w) (rw_body w)
  | Some _ => w
  end.

(** [w.Write(bs)]: sends status 200 first when none was sent. *)
Definition Write (bs : list byte) (w : ResponseWriter) : ResponseWriter :=
  let w := WriteHeader StatusOK w in
  mkResponseWriter (rw_status w) (rw_contentType w) (rw_body w ++ bs).

(** [http.Error(w, msg, code)]: a plain-text reply, the message and a
    newline. *)
Definition Error (msg : string) (code : nat) (w : ResponseWriter) : ResponseWriter :=
  let w :=
    match rw_status w with
    | None => mkResponseWriter None (Some "text/plain; charset=utf-8") (rw_body w)
    | Some _ => w
    end in
  Write (String.list_byte_of_string msg ++ [x0a]) (WriteHeader code w).

(** The status the client sees: 200 when the handler returned without
    sending one. *)
Definition final_status (w : ResponseWriter) : nat := default StatusOK (rw_status w).

Definition is_5xx (code : nat) : bool := Nat.leb 500 code && Nat.ltb code 600.

End Http.

Import Http.

(** ** The live server: acquisition loop and published payload *)

Module Live.

(** [outputBuffer]: [front] is the published slice, [back] the contents
    of the [bytes.Buffer] the encoder writes into. *)
Record outputBuffer := mkOutputBuffer {
  front : slice;
  back : list byte
}.

Record imageSource := mkImageSource {
  exposure : float64;
  gain : float64;
  width : Z;
  height : Z;
  payloadSize : nat;
  out : outputBuffer
}.

(** Everything the two goroutines share or act on: the image source, the
    store of byte slices, the stream of the camera thread, and the trace
    of what has happened so far (oldest event first). *)
Record World := mkWorld {
  src : imageSource;
  mem : heap;
  stream : Stream;
  trace : list event
}.

Definition emit (e : event) (w : World) : World :=
  mkWorld (src w) (mem w) (stream w) (trace w ++ [e]).

Definition set_out (o : outputBuffer) (w : World) : World :=
  let s := src w in
  mkWorld (mkImageSource (exposure s) (gain s) (width s) (height s) (payloadSize s) o)
          (mem w) (stream w) (trace w).

Definition set_gain (g : float64) (w : World) : World :=
  let s := src w in
  mkWorld (mkImageSource (exposure s) g (width s) (height s) (payloadSize s) (out s))
          (mem w) (stream w) (trace w).

Definition set_exposure (e : float64) (w : World) : World :=
  let s := src w in
  mkWorld (mkImageSource e (gain s) (width s) (height s) (payloadSize s) (out s))
          (mem w) (stream w) (trace w).

Definition set_mem (h : heap) (w : World) : World :=
  mkWorld (src w) h (stream w) (trace w).

Definition set_stream (s : Stream) (w : World) : World :=
  mkWorld (src w) (mem w) s (trace w).

(** [stream.TimeoutPopBuffer(time.Second)] *)
Definition popBuffer (ready : option Frame) (w : World) : BufferHandle * World :=
  let '(b, s) := TimeoutPopBuffer ready (stream w) in
  (b, emit (EvPop b) (set_stream s w)).

(** [stream.PushBuffer(buffer)] *)
Definition pushBuffer (b : BufferHandle) (w : World) : World :=
  emit (EvPush b) (set_stream (PushBuffer b (stream w)) w).

(** [encoder.Encode(is.out.back, img)]: the bytes land in the back buffer
    whether or not an error comes back with them. *)
Definition encodeToBack (enc : Encoder) (img : Gray) (w : World) : error * World :=
  let '(written, err) := Encode enc img in
  let o := out (src w) in
  (err, set_out (mkOutputBuffer (front o) (back o ++ written)) w).

(** Lines 224-228: the commit.
<<
    is.out.mu.Lock()
    is.out.front = make([]byte, is.out.back.Len())
    copy(is.out.front, is.out.back.Bytes())
    is.out.back.Reset()
    is.out.mu.Unlock()
>> *)
Definition commit (w : World) : World :=
  let w := emit (EvLock OutMu) w in
  let o := out (src w) in
  let '(l, h) := make (length (back o)) (mem w) in
  let w := set_out (mkOutputBuffer (Some l) (back o)) (set_mem h w) in
  let w := set_mem (copy l (back (out (src w))) (mem w)) w in
  let w := set_out (mkOutputBuffer (front (out (src w))) []) w in
  emit (EvUnlock OutMu) w.

(** One pass through the body of the [for] loop of [cameraThread], after
    the cancellation check (lines 201-228). *)
Definition cameraIter (enc : Encoder) (ready : option Frame) (w : World) : World :=
  let '(buffer, w) := popBuffer ready w in
  if decide (GetStatus buffer <> Success) then
    pushBuffer buffer w
  else
    let data := GetData buffer in
    let img := mkGray data (width (src w)) (height (src w)) in
    let '(err, w) := encodeToBack enc img w in
    match err with
    | Some e =>
        let w := emit (EvLog e) w in
        let w := emit (EvLog "encode error buffer") w in
        pushBuffer buffer w
    | None =>
        let w := pushBuffer buffer w in
        commit w
    end.

(** The [for] loop: one element of [ticks] per iteration; the context is
    done when the list is used up. *)
Fixpoint cameraLoop (enc : Encoder) (ticks : list (option Frame)) (w : World) : World :=
  match ticks with
  | [] => w
  | t :: rest => cameraLoop enc rest (cameraIter enc t w)
  end.

(** What the outside world decides about the start of [cameraThread]. *)
Record StreamEnv := mkStreamEnv {
  createStreamErr : error;
  newBufferErr : nat -> error
}.

(** Lines 172-178: seed the stream with two buffers. *)
Fixpoint seedBuffers (env : StreamEnv) (n i : nat) (w : World) : error * World :=
  match n with
  | O => (None, w)
  | S n' =>
      match newBufferErr env i with
      | Some e => (Some e, w)
      | None => seedBuffers env n' (S i) (pushBuffer (NewBuffer i) w)
      end
  end.

(** Lines 165-189: the part of [cameraThread] before the loop.  An error
    of [CreateStream] returns before any [defer]; an error of [NewBuffer]
    returns after [defer stream.Close()]. *)
Definition cameraStart (env : StreamEnv) (w : World) : error * World :=
  match createStreamErr env with
  | Some e => (Some e, w)
  | None =>
      let w := set_stream (mkStream []) w in
      match seedBuffers env 2 0 w with
      | (Some e, w) => (Some e, emit EvStreamClose w)
      | (None, w) => (None, emit EvStartAcquisition w)
      end
  end.

(** The deferred calls of a thread that reached the loop. *)
Definition cameraStop (w : World) : World :=
  emit EvStreamClose (emit EvStopAcquisition w).

(** [cameraThread(ctx, is)], lines 163-231. *)
Definition cameraThread (env : StreamEnv) (enc : Encoder)
    (ticks : list (option Frame)) (w : World) : error * World :=
  match cameraStart env w with
  | (Some e, w) => (Some e, w)
  | (None, w) => (None, cameraStop (cameraLoop enc ticks w))
  end.

(** What the outside world decides during one request: how the form
    values parse ([strconv.ParseFloat(s, 64)]), whether the device accepts
    the new settings, whether the connection takes the body. *)
Record HandlerEnv := mkHandlerEnv {
  ParseFloat : string -> float64 * error;
  setGainErr : float64 -> error;
  setExposureTimeErr : float64 -> error;
  writeErr : error
}.

(** Lines 245-255. *)
Definition applyGain (env : HandlerEnv) (r : Request) (w : World) : World :=
  let gainStr := FormValue (req_form r) "gain" in
  if negb (String.eqb gainStr "") then
    let '(gain, _) := ParseFloat env gainStr in
    if float_ne gain (Live.gain (src w)) then
      let w := emit (EvLock IsMu) w in
      let w := set_gain gain w in
      let _ := setGainErr env gain in
      let w := emit (EvSetGain gain) w in
      let w := emit (EvLog "Gain: %f") w in
      emit (EvUnlock IsMu) w
    else w
  else w.

(** Lines 257-267. *)
Definition applyExposure (env : HandlerEnv) (r : Request) (w : World) : World :=
  let exposureStr := FormValue (req_form r) "exposure" in
  if negb (String.eqb exposureStr "") then
    let '(exposure, _) := ParseFloat env exposureStr in
    if float_ne exposure (Live.exposure (src w)) then
      let w := emit (EvLock IsMu) w in
      let _ := setExposureTimeErr env exposure in
      let w := emit (EvSetExposureTime exposure) w in
      let w := set_exposure exposure w in
      let w := emit (EvLog "Exposure: %f") w in
      emit (EvUnlock IsMu) w
    else w
  else w.

(** Lines 269-274, with the two deferred unlocks that run when the
    handler returns, last deferred first. *)
Definition writeFront (env : HandlerEnv) (rw : ResponseWriter) (w : World)
  : ResponseWriter * World :=
  let w := emit (EvLock OutMu) w in
  let payload := bytes_of (mem w) (front (out (src w))) in
  let w := emit (EvWrite payload) w in
  let '(rw, w) :=
    match writeErr env with
    | None => (Write payload rw, w)
    | Some e => (rw, emit (EvLog e) w)
    end in
  (rw, emit (EvUnlock Mu) (emit (EvUnlock OutMu) w)).

(** The handler that [servePNG(is)] returns, lines 233-276. *)
Definition servePNG (env : HandlerEnv) (r : Request) (rw : ResponseWriter) (w : World)
  : ResponseWriter * World :=
  let w := emit (EvLock Mu) w in
  if req_done r then
    let w := emit (EvLog "request canceled") w in
    (rw, emit (EvUnlock Mu) w)
  else
    let w := applyGain env r w in
    let w := applyExposure env r w in
    writeFront env rw w.

(** ** [main] of the live server *)

(** What the outside world decides during a run: the devices, the
    defaults from the command line, and the order in which loop
    iterations and requests happen before the signal arrives. *)
Inductive Step :=
| Tick (ready : option Frame)
| Serve (env : HandlerEnv) (r : Request).

Record MainEnv := mkMainEnv {
  numDevices : nat;
  numDevicesErr : error;
  newCameraErr : error;
  defaultExposure : float64;
  defaultGain : float64;
  regionWidth : Z;
  regionHeight : Z;
  devicePayloadSize : nat;
  streamEnv : StreamEnv;
  pngEncoder : Encoder;
  schedule : list Step
}.

(** How the process ends: [logger.Fatal] prints and exits with status 1;
    otherwise [main] returns after the signal. *)
Inductive Exit :=
| Fatal (diagnostic : string)
| Quit.

Record Run := mkRun {
  exit : Exit;
  world : World;
  responses : list ResponseWriter
}.

(** Lines 321-331: the image source as [main] builds it; [out.front] is
    the nil slice and [out.back] an empty buffer. *)
Definition newImageSource (env : MainEnv) : imageSource :=
  mkImageSource (defaultExposure env) (defaultGain env)
                (regionWidth env) (regionHeight env) (devicePayloadSize env)
                (mkOutputBuffer None []).

Definition newWorld (env : MainEnv) : World :=
  mkWorld (newImageSource env) ∅ (mkStream []) [].

(** The two goroutines until the signal: iterations of a camera thread
    that reached its loop, and requests. *)
Fixpoint serve (enc : Encoder) (acquiring : bool) (steps : list Step)
    (w : World) (resps : list ResponseWriter) : World * list ResponseWriter :=
  match steps with
  | [] => (w, resps)
  | Tick ready :: rest =>
      serve enc acquiring rest (if acquiring then cameraIter enc ready w else w) resps
  | Serve henv r :: rest =>
      let '(rw, w) := servePNG henv r newResponse w in
      serve enc acquiring rest w (resps ++ [rw])
  end.

(** [main], lines 283-366.  The result of [NewCamera] and the result of
    [cameraThread] are dropped where the source drops them. *)
Definition main (env : MainEnv) : Run :=
  let w := newWorld env in
  match numDevicesErr env with
  | Some e => mkRun (Fatal e) (emit (EvLog e) w) []
  | None =>
      if Nat.eqb (numDevices env) 0 then
        let msg := "No devices found. Exiting." in
        mkRun (Fatal msg) (emit (EvLog msg) w) []
      else
        let _ := newCameraErr env in
        let w := emit (EvSetExposureTime (defaultExposure env)) w in
        let w := emit (EvSetGain (defaultGain env)) w in
        let w := emit (EvLog "Found camera: %s Exposure: %f, Gain: %f") w in
        let '(err, w) := cameraStart (streamEnv env) w in
        let acquiring := match err with None => true | Some _ => false end in
        let w := emit (EvLog "Listening...") w in
        let '(w, resps) := serve (pngEncoder env) acquiring (schedule env) w [] in
        let w := emit (EvLog "Recieved signal: %s") w in
        let w := if acquiring then cameraStop w else w in
        let w := emit (EvLog "http: Server closed") w in
        let w := emit (EvLog "Quitting.") w in
        mkRun Quit w resps
  end.

End Live.

(** ** The one-shot server: one frame per request *)

Module OneShot.

(** What the outside world decides during one request. *)
Record CameraEnv := mkCameraEnv {
  exposureTime : float64;
  gain : float64;
  createStreamErr : error;
  newBufferErr : error;
  ready : option Frame;
  regionWidth : Z;
  regionHeight : Z
}.

Record Reply := mkReply {
  response : ResponseWriter;
  events : list event
}.

(** Lines 32-43.  A stream that could not be created holds no buffers and
    takes none. *)
Definition openStream (cam : CameraEnv) : Stream * BufferHandle :=
  let buffer :=
    match newBufferErr cam with
    | None => NewBuffer 0
    | Some _ => None
    end in
  match createStreamErr cam with
  | None => (PushBuffer buffer (mkStream []), buffer)
  | Some _ => (mkStream [], buffer)
  end.

(** The handler that [servePNG(camera)] returns, lines 18-67.  The camera
    is configured from the package-level [exposureTime] and [gain] on every
    request, and the results of these calls are dropped.  The two error
    replies of lines 34 and 41 are not followed by a return. *)
Definition servePNG (cam : CameraEnv) (enc : Encoder) (rw : ResponseWriter) : Reply :=
  let rw :=
    match createStreamErr cam with
    | Some e => Error e StatusInternalServerError rw
    | None => rw
    end in
  let rw :=
    match newBufferErr cam with
    | Some e => Error e StatusInternalServerError rw
    | None => rw
    end in
  let '(stream, pushed) := openStream cam in
  let tr := [EvSetExposureTime (exposureTime cam); EvSetGain (gain cam);
             EvPush pushed; EvStartAcquisition] in
  let '(buffer, stream) := TimeoutPopBuffer (ready cam) stream in
  let tr := tr ++ [EvPop buffer] in
  if decide (GetStatus buffer <> Success) then
    mkReply (Error "buffer error" StatusInternalServerError rw)
            (tr ++ [EvStopAcquisition; EvStreamClose])
  else
    let data := GetData buffer in
    let img := mkGray data (regionWidth cam) (regionHeight cam) in
    let '(written, err) := Encode enc img in
    let rw := match written with [] => rw | _ => Write written rw end in
    let tr :=
      match err with
      | Some e => tr ++ [EvLog e]
      | None => tr
      end in
    mkReply rw (tr ++ [EvStopAcquisition; EvStreamClose]).

End OneShot.

(** ** Sample inputs *)

Module Samples.

(** A stand-in for [strconv.ParseFloat(s, 64)] on the strings the
    examples use: a string of decimal digits parses to that integer (exact
    below 2^53), any other string is taken as malformed, for which
    [ParseFloat] returns 0 and a syntax error. *)
Definition digit (c : Ascii.ascii) : option Z :=
  let n := Z.of_nat (Ascii.nat_of_ascii c) in
  if (48 <=? n)%Z && (n <=? 57)%Z then Some (n - 48)%Z else None.

Fixpoint digits (s : string) (acc : Z) : option Z :=
  match s with
  | EmptyString => Some acc
  | String c rest =>
      match digit c with
      | Some d => digits rest (10 * acc + d)%Z
      | None => None
      end
  end.

Definition parseDecimal (s : string) : float64 * error :=
  match s with
  | EmptyString => (S754_zero false, Some "invalid syntax")
  | _ =>
      match digits s 0 with
      | Some z => (float64_of_Z z, None)
      | None => (S754_zero false, Some "invalid syntax")
      end
  end.

(** An encoder that writes a two-byte signature and the pixels, and fails,
    before it writes anything, on an image without pixels. *)
Definition signatureEncoder : Encoder :=
  mkEncoder (fun img =>
    match Pix img with
    | [] => ([], Some "png: no pixels")
    | pix => ([x89; x50] ++ pix, None)
    end).

(** An encoder that fails before it writes, on an empty rectangle. *)
Definition strictEncoder : Encoder :=
  mkEncoder (fun img =>
    if ((Dx img <=? 0) || (Dy img <=? 0))%Z
    then ([], Some "png: invalid format: invalid image size")
    else ([x89; x50] ++ Pix img, None)).

Definition quietDevice : Live.HandlerEnv :=
  Live.mkHandlerEnv parseDecimal (fun _ => None) (fun _ => None) None.



Definition failingDevice : Live.HandlerEnv :=
  Live.mkHandlerEnv parseDecimal
    (fun _ => Some "arv-device-error: write failed")
    (fun _ => Some "arv-device-error: write failed") None.

Definition goodStream : Live.StreamEnv := Live.mkStreamEnv None (fun _ => None).

(** A live server as [main] sets it up with gain 16 dB and exposure
    10000 us on a 2x1 sensor, its camera thread about to enter the loop. *)
Definition mainEnv (sched : list Live.Step) : Live.MainEnv :=
  Live.mkMainEnv 1 None None (float64_of_Z 10000) (float64_of_Z 16)
                 2 1 2 goodStream signatureEncoder sched.

Definition started : Live.World :=
  snd (Live.cameraStart goodStream (Live.newWorld (mainEnv []))).

Definition get (form : list (string * string)) : Request := mkRequest false form.

(** The encoder of [cameraThread] with a stand-in for the compressed
    bytes, and a live server whose [GetRegion] failed, so that width and
    height are 0 and the size check rejects every frame. *)
Definition pngLike : Encoder := bufferEncoder (fun img => [x89; x50] ++ Pix img).

Definition noRegion : Live.World :=
  snd (Live.cameraStart goodStream
         (Live.newWorld
            (Live.mkMainEnv 1 None None (float64_of_Z 10000) (float64_of_Z 16)
                            0 0 2 goodStream pngLike []))).

(** The same server after its first frame, two pixels, has been published. *)
Definition published : Live.World :=
  Live.cameraIter signatureEncoder (Some (mkFrame Success [x01; x02])) started.

(** Three pops in a row that time out. *)
Definition threeTimeouts : list (option Frame) :=
  [Some (mkFrame Timeout []); Some (mkFrame Timeout []); Some (mkFrame Timeout [])].

(** A device whose stream cannot be created, one whose second buffer
    cannot be allocated, and one that cannot be opened. *)
Definition noStream (sched : list Live.Step) : Live.MainEnv :=
  Live.mkMainEnv 1 None None (float64_of_Z 10000) (float64_of_Z 16) 2 1 2
    (Live.mkStreamEnv (Some "arv-stream-error: cannot create stream") (fun _ => None))
    signatureEncoder sched.

Definition noBuffer (sched : list Live.Step) : Live.MainEnv :=
  Live.mkMainEnv 1 None None (float64_of_Z 10000) (float64_of_Z 16) 2 1 2
    (Live.mkStreamEnv None
       (fun i => if Nat.eqb i 1 then Some "arv-buffer-error: out of memory" else None))
    signatureEncoder sched.

Definition noCamera (sched : list Live.Step) : Live.MainEnv :=
  Live.mkMainEnv 1 None (Some "arv-device-error: device not found")
    (float64_of_Z 10000) (float64_of_Z 16) 0 0 0 goodStream signatureEncoder sched.

Definition noDevices : Live.MainEnv :=
  Live.mkMainEnv 0 None None (float64_of_Z 10000) (float64_of_Z 16) 0 0 0
    goodStream signatureEncoder [].

(** One tick of the device and one request, in that order. *)
Definition oneFrameOneRequest : list Live.Step :=
  [Live.Tick (Some (mkFrame Success [x01; x02])); Live.Serve quietDevice (get [])].



End Samples.

(** ** Notions the statements use *)

Section notions.

Import Live.

(** An iteration whose pop gives no Success status. *)
Definition not_success (ready : option Frame) : Prop :=
  match ready with
  | Some f => fr_status f <> Success
  | None => True
  end.

(** The two settings a request may carry. *)
Inductive setting := GainSetting | ExposureSetting.

Definition key (s : setting) : string :=
  match s with GainSetting => "gain" | ExposureSetting => "exposure" end.

Definition current (s : setting) (i : Live.imageSource) : float64 :=
  match s with GainSetting => Live.gain i | ExposureSetting => Live.exposure i end.

Definition calls (s : setting) (tr : list event) : list float64 :=
  match s with GainSetting => gain_calls tr | ExposureSetting => exposure_calls tr end.

(** Whether a mutex is held after a thread has performed [tr]. *)
Fixpoint held (m : mutex) (h : bool) (tr : list event) : bool :=
  match tr with
  | [] => h
  | EvLock m' :: rest => held m (if decide (m' = m) then true else h) rest
  | EvUnlock m' :: rest => held m (if decide (m' = m) then false else h) rest
  | _ :: rest => held m h rest
  end.

(** Whether some response write of [tr] happens while the thread holds [m]. *)
Fixpoint holds_at_write (m : mutex) (h : bool) (tr : list event) : bool :=
  match tr with
  | [] => false
  | EvLock m' :: rest => holds_at_write m (if decide (m' = m) then true else h) rest
  | EvUnlock m' :: rest => holds_at_write m (if decide (m' = m) then false else h) rest
  | EvWrite _ :: rest => h || holds_at_write m h rest
  | _ :: rest => holds_at_write m h rest
  end.

(** Two goroutines and one mutex table: a schedule is admissible when no
    thread locks a mutex that is held; a thread whose next event is such a
    lock waits. *)
Inductive thread := CameraThread | RequestThread.

Definition tagged (t : thread) (tr : list event) : list (thread * event) :=
  map (fun e => (t, e)) tr.

Fixpoint admissible (own : mutex -> option thread) (sched : list (thread * event)) : bool :=
  match sched with
  | [] => true
  | (t, EvLock m) :: rest =>
      match own m with
      | None => admissible (fun m' => if decide (m' = m) then Some t else own m') rest
      | Some _ => false
      end
  | (t, EvUnlock m) :: rest =>
      admissible (fun m' => if decide (m' = m) then None else own m') rest
  | _ :: rest => admissible own rest
  end.

Definition unlocked : mutex -> option thread := fun _ => None.

(** The events one request adds to the trace. *)
Definition gainEvents (env : HandlerEnv) (r : Request) (w : World) : list event :=
  let str := FormValue (req_form r) "gain" in
  let v := (ParseFloat env str).1 in
  if negb (String.eqb str "") && float_ne v (gain (src w))
  then [EvLock IsMu; EvSetGain v; EvLog "Gain: %f"; EvUnlock IsMu] else [].

Definition exposureEvents (env : HandlerEnv) (r : Request) (w : World) : list event :=
  let str := FormValue (req_form r) "exposure" in
  let v := (ParseFloat env str).1 in
  if negb (String.eqb str "") && float_ne v (exposure (src w))
  then [EvLock IsMu; EvSetExposureTime v; EvLog "Exposure: %f"; EvUnlock IsMu] else [].

Definition writeEvents (env : HandlerEnv) (w : World) : list event :=
  [EvLock OutMu; EvWrite (bytes_of (mem w) (front (out (src w))))]
  ++ match writeErr env with Some e => [EvLog e] | None => [] end
  ++ [EvUnlock OutMu; EvUnlock Mu].

Definition requestEvents (env : HandlerEnv) (r : Request) (w : World) : list event :=
  if req_done r then [EvLock Mu; EvLog "request canceled"; EvUnlock Mu]
  else EvLock Mu :: gainEvents env r w ++ exposureEvents env r w ++ writeEvents env w.

(** Whether a request makes the handler apply a setting: the form value
    is present and what [ParseFloat] returned for it differs from the
    recorded value. *)
Definition applies (s : setting) (env : HandlerEnv) (r : Request) (w : World) : bool :=
  let str := FormValue (req_form r) (key s) in
  negb (String.eqb str "") && float_ne (ParseFloat env str).1 (current s (src w)).

Definition requested (s : setting) (env : HandlerEnv) (r : Request) : float64 :=
  (ParseFloat env (FormValue (req_form r) (key s))).1.

(** A request to the one-shot handler during which the device fails: the
    stream cannot be created, the buffer cannot be allocated, or the pop
    yields no Success status. *)
Definition device_failed (cam : OneShot.CameraEnv) : Prop :=
  OneShot.createStreamErr cam <> None \/
  OneShot.newBufferErr cam <> None \/
  not_success (OneShot.ready cam).

(** A response to which nothing has been sent, and one that carries the
    plain-text error status. *)
Definition reply_pending (rw : ResponseWriter) : Prop := rw_status rw = None.

Definition reply_is_error (rw : ResponseWriter) : Prop :=
  rw_status rw = Some StatusInternalServerError /\
  rw_contentType rw = Some "text/plain; charset=utf-8".

(** What the commit adds to the trace of the camera thread. *)
Definition commitEvents : list event := [EvLock OutMu; EvUnlock OutMu].

End notions.

(** ** The buffer pool of the encoder *)

Module EncoderPool.

(** [*png.EncoderBuffer]: nil, or a buffer told apart by its address. *)
Definition EncoderBuffer : Type := option nat.

(** [pool], lines 150-152: one slot. *)
Record pool := mkPool { b : EncoderBuffer }.

(** [&pool{}], line 182. *)
Definition empty : pool := mkPool None.

(** [Get], lines 154-156: returns the slot and leaves it as it is. *)
Definition Get (p : pool) : EncoderBuffer * pool := (b p, p).

(** [Put], lines 158-160: overwrites the slot. *)
Definition Put (x : EncoderBuffer) (p : pool) : pool := mkPool x.

(** A caller's calls, one after the other, and what its [Get]s returned. *)
Inductive call :=
| CallGet
| CallPut (x : EncoderBuffer).

Fixpoint run (cs : list call) (p : pool) : list EncoderBuffer * pool :=
  match cs with
  | [] => ([], p)
  | CallGet :: rest =>
      let '(x, p) := Get p in
      let '(got, p) := run rest p in
      (x :: got, p)
  | CallPut x :: rest => run rest (Put x p)
  end.

(** The buffer of the last [Put] among [cs], [x0] when there is none. *)
Fixpoint lastPut (cs : list call) (x0 : EncoderBuffer) : EncoderBuffer :=
  match cs with
  | [] => x0
  | CallGet :: rest => lastPut rest x0
  | CallPut x :: rest => lastPut rest x
  end.

End EncoderPool.

(** ** [main] of the one-shot server *)

Module OneShotMain.

Record MainEnv := mkMainEnv {
  numDevices : nat;
  numDevicesErr : error;
  listenErr : string
}.

(** [fmt.Sprintf("/%d.png", i)], line 97. *)
Definition pattern (i : nat) : string :=
  "/" +:+ NilEmpty.string_of_uint (Nat.to_uint i) +:+ ".png".

(** The default [ServeMux]: the registered patterns, each with the index of
    the camera its handler serves. *)
Definition ServeMux : Type := list (string * nat).

(** [http.Handle(pattern, handler)]: panics when the pattern is already
    registered. *)
Definition Handle (pat : string) (cam : nat) (mux : ServeMux) : option ServeMux :=
  if existsb (fun e => String.eqb e.1 pat) mux then None
  else Some (mux ++ [(pat, cam)]).

(** The handler a path is routed to: the patterns have no trailing slash, so
    a path matches a pattern only when they are equal. *)
Fixpoint route (path : string) (mux : ServeMux) : option nat :=
  match mux with
  | [] => None
  | (pat, cam) :: rest => if String.eqb pat path then Some cam else route path rest
  end.

(** Lines 92-98: one handler per device, [count] devices from index [i]
    on.  The errors of [GetDeviceId] and [NewCamera] are dropped. *)
Fixpoint handleDevices (count i : nat) (mux : ServeMux) : option ServeMux :=
  match count with
  | O => Some mux
  | S count' =>
      match Handle (pattern i) i mux with
      | None => None
      | Some mux => handleDevices count' (S i) mux
      end
  end.

(** How the process ends: in a panic, or in [log.Fatal] with a diagnostic,
    having registered the handlers of [mux] before. *)
Inductive Outcome :=
| Panicked
| Exited (diagnostic : string) (mux : ServeMux).

(** [main], lines 74-102.  [http.ListenAndServe] returns only with an
    error, which goes to [log.Fatal]. *)
Definition main (env : MainEnv) : Outcome :=
  match numDevicesErr env with
  | Some e => Exited e []
  | None =>
      if Nat.eqb (numDevices env) 0 then Exited "No devices found. Exiting." []
      else
        match handleDevices (numDevices env) 0 [] with
        | None => Panicked
        | Some mux => Exited (listenErr env) mux
        end
  end.

End OneShotMain.

(** ** Further notions *)

Section more_notions.

Import Live.

(** An encoder that writes nothing when it fails. *)
Definition fails_before_writing (enc : Encoder) : Prop :=
  forall img e, (Encode enc img).2 = Some e -> (Encode enc img).1 = [].

(** What an iteration publishes: the encoding of its frame when the pop
    gave a Success buffer and the encoder succeeded, nothing otherwise. *)
Definition encoded (enc : Encoder) (wd ht : Z) (ready : option Frame) : option (list byte) :=
  match ready with
  | Some f =>
      if decide (fr_status f = Success) then
        match Encode enc (mkGray (fr_data f) wd ht) with
        | (bs, None) => Some bs
        | (_, Some _) => None
        end
      else None
  | None => None
  end.

(** The encoding of the last frame of [ticks] that has one, [cur] when
    there is none. *)
Fixpoint latest (enc : Encoder) (wd ht : Z) (ticks : list (option Frame))
    (cur : list byte) : list byte :=
  match ticks with
  | [] => cur
  | t :: rest => latest enc wd ht rest (default cur (encoded enc wd ht t))
  end.

(** The events the loop of the camera thread may add to the trace. *)
Definition loop_event (e : event) : bool :=
  match e with
  | EvPop _ | EvPush _ | EvLog _ | EvLock OutMu | EvUnlock OutMu => true
  | _ => false
  end.

Definition is_start (e : event) : bool :=
  match e with EvStartAcquisition => true | _ => false end.
Definition is_stop (e : event) : bool :=
  match e with EvStopAcquisition => true | _ => false end.
Definition is_close (e : event) : bool :=
  match e with EvStreamClose => true | _ => false end.
Definition is_pop (e : event) : bool :=
  match e with EvPop _ => true | _ => false end.

Definition count_ev (p : event -> bool) (tr : list event) : nat :=
  length (List.filter p tr).

(** The first error of the startup of [cameraThread], if any. *)
Definition startupError (env : StreamEnv) : error :=
  match createStreamErr env with
  | Some e => Some e
  | None =>
      match newBufferErr env 0 with
      | Some e => Some e
      | None => newBufferErr env 1
      end
  end.

(** The mutexes a thread holds after [tr], starting from [own]. *)
Fixpoint holding (own : mutex -> bool) (tr : list event) : mutex -> bool :=
  match tr with
  | [] => own
  | EvLock m :: rest => holding (fun m' => if decide (m' = m) then true else own m') rest
  | EvUnlock m :: rest => holding (fun m' => if decide (m' = m) then false else own m') rest
  | _ :: rest => holding own rest
  end.

(** The locking discipline of the handler, checked along a trace: a device
    call is made holding [mu] and [is.mu] but not [is.out.mu]; the body is
    written holding [mu] and [is.out.mu] but not [is.mu]; a lock is taken
    only when it is free and released only when it is held. *)
Fixpoint disciplined (own : mutex -> bool) (tr : list event) : bool :=
  match tr with
  | [] => true
  | EvLock m :: rest =>
      negb (own m) && disciplined (fun m' => if decide (m' = m) then true else own m') rest
  | EvUnlock m :: rest =>
      own m && disciplined (fun m' => if decide (m' = m) then false else own m') rest
  | EvSetGain _ :: rest | EvSetExposureTime _ :: rest =>
      own Mu && own IsMu && negb (own OutMu) && disciplined own rest
  | EvWrite _ :: rest =>
      own Mu && own OutMu && negb (own IsMu) && disciplined own rest
  | _ :: rest => disciplined own rest
  end.

Definition none_held : mutex -> bool := fun _ => false.

(** The requests of a schedule, in order. *)
Definition requests_of (steps : list Step) : list (HandlerEnv * Request) :=
  omap (fun st => match st with Serve env r => Some (env, r) | Tick _ => None end) steps.

(** What a request is answered with when the payload is [payload]. *)
Definition answer (payload : list byte) (q : HandlerEnv * Request) : ResponseWriter :=
  if req_done q.2 then newResponse
  else match writeErr q.1 with
       | None => Write payload newResponse
       | Some _ => newResponse
       end.

(** The routes of [count] devices from index [first] on, in the order of
    registration. *)
Definition registered (first count : nat) : OneShotMain.ServeMux :=
  map (fun i => (OneShotMain.pattern i, i)) (seq first count).

End more_notions.

(** ** More sample inputs *)

Module Scenarios.

Import Samples.

(** A request that is cancelled before the handler looks at it, carrying
    new settings all the same. *)
Definition cancelled : Request :=
  mkRequest true [("gain", "20"); ("exposure", "5000")].

(** A frame of two pixels, then a frame without pixels, then a timeout. *)
Definition mixedTicks : list (option Frame) :=
  [Some (mkFrame Success [x01; x02]); Some (mkFrame Success []); None].

(** Three requests in a row: a plain one, a cancelled one, and one that
    asks a failing device for a new gain. *)
Definition threeRequests : list Live.Step :=
  [Live.Serve quietDevice (get []);
   Live.Serve quietDevice cancelled;
   Live.Serve failingDevice (get [("gain", "20")])].

Definition goodCamera : OneShot.CameraEnv :=
  OneShot.mkCameraEnv (float64_of_Z 10000) (float64_of_Z 16)
    None None (Some (mkFrame Success [x01; x02])) 2 1.

(** A one-shot server with two devices whose port is taken. *)
Definition twoDevices : OneShotMain.MainEnv :=
  OneShotMain.mkMainEnv 2 None "listen tcp :8000: bind: address already in use".

End Scenarios.

(** ** Basic facts about the store *)

Section store.

Lemma make_fresh n (h : heap) : h !! (make n h).1 = None.
Proof.
  unfold make; simpl. apply not_elem_of_dom. apply is_fresh.
Qed.

Lemma copy_other dst src (h : heap) l : l <> dst -> copy dst src h !! l = h !! l.
Proof.
  intros Hne. unfold copy. destruct (h !! dst); [|done].
  by rewrite lookup_insert_ne.
Qed.

Lemma copy_full dst src (h : heap) d :
  h !! dst = Some d -> length d = length src -> copy dst src h !! dst = Some src.
Proof.
  intros Hd Hlen. unfold copy. rewrite Hd, lookup_insert_eq.
  rewrite (drop_ge d) by lia. rewrite Hlen, firstn_all, app_nil_r. done.
Qed.

End store.

(** ** The acquisition loop *)

Section acquisition.

Import Live.

Variable enc : Encoder.

Lemma pops_app tr1 tr2 : pops (tr1 ++ tr2) = pops tr1 ++ pops tr2.
Proof. apply omap_app. Qed.

Lemma pushes_app tr1 tr2 : pushes (tr1 ++ tr2) = pushes tr1 ++ pushes tr2.
Proof. apply omap_app. Qed.

(** Lending a buffer out and taking it back leaves the pool as large as
    it was, whatever the device did. *)
Lemma pop_push_pool ready (s : Stream) :
  length (pool (PushBuffer (TimeoutPopBuffer ready s).1 (TimeoutPopBuffer ready s).2))
  = length (pool s).
Proof.
  unfold TimeoutPopBuffer. destruct ready as [f|]; [|done].
  destruct s as [[|i rest]]; simpl; [done|].
  rewrite length_app. simpl. lia.
Qed.

(** Each iteration pops once, pushes once, and pushes what it popped; the
    pool ends as large as it began. *)
Lemma cameraIter_stream ready w :
  let b := (TimeoutPopBuffer ready (stream w)).1 in
  exists evs,
    trace (cameraIter enc ready w) = trace w ++ evs /\
    pops evs = [b] /\ pushes evs = [b] /\
    length (pool (stream (cameraIter enc ready w))) = length (pool (stream w)).
Proof.
  intros b. subst b. pose proof (pop_push_pool ready (stream w)) as Hpool.
  unfold cameraIter, popBuffer.
  destruct (TimeoutPopBuffer ready (stream w)) as [b s]. simpl in *.
  case_decide.
  - exists [EvPop b; EvPush b]. simpl. rewrite <- app_assoc. done.
  - unfold encodeToBack.
    destruct (Encode enc _) as [written [e|]]; simpl.
    + exists [EvPop b; EvLog e; EvLog "encode error buffer"; EvPush b]. simpl.
      rewrite <- !app_assoc. done.
    + exists [EvPop b; EvPush b; EvLock OutMu; EvUnlock OutMu]. simpl.
      rewrite <- !app_assoc. done.
Qed.

Lemma cameraLoop_pool ticks : forall w,
  length (pool (stream (cameraLoop enc ticks w))) = length (pool (stream w)).
Proof.
  induction ticks as [|t ticks IH]; intros w; simpl; [done|].
  rewrite IH. by destruct (cameraIter_stream t w) as (? & _ & _ & _ & ->).
Qed.

Lemma not_success_status ready s :
  not_success ready -> GetStatus (TimeoutPopBuffer ready s).1 <> Success.
Proof.
  unfold TimeoutPopBuffer. destruct ready as [f|]; [|done].
  destruct (pool s); simpl; done.
Qed.

Lemma cameraIter_not_success ready w :
  not_success ready ->
  let b := (TimeoutPopBuffer ready (stream w)).1 in
  src (cameraIter enc ready w) = src w /\
  mem (cameraIter enc ready w) = mem w /\
  trace (cameraIter enc ready w) = trace w ++ [EvPop b; EvPush b].
Proof.
  intros Hns b. subst b.
  pose proof (not_success_status ready (stream w) Hns) as Hst.
  unfold cameraIter, popBuffer.
  destruct (TimeoutPopBuffer ready (stream w)) as [b s]. simpl in *.
  case_decide; [|done]. simpl. rewrite <- app_assoc. done.
Qed.

Lemma cameraLoop_not_success ticks : forall w,
  Forall not_success ticks ->
  exists evs,
    src (cameraLoop enc ticks w) = src w /\
    mem (cameraLoop enc ticks w) = mem w /\
    trace (cameraLoop enc ticks w) = trace w ++ evs /\
    pushes evs = pops evs /\
    length (pops evs) = length ticks.
Proof.
  induction ticks as [|t ticks IH]; intros w Hall; simpl.
  - exists []. by rewrite app_nil_r.
  - inversion Hall as [|? ? Ht Hrest]; subst.
    destruct (cameraIter_not_success t w Ht) as (Hsrc & Hmem & Htr).
    destruct (IH (cameraIter enc t w) Hrest) as (evs & Hsrc' & Hmem' & Htr' & Hpp & Hlen).
    eexists ([_; _] ++ evs). rewrite Hsrc', Hmem', Htr', Hsrc, Hmem, Htr.
    rewrite <- app_assoc, pushes_app, pops_app, length_app, Hpp, Hlen. done.
Qed.

(** What a commit does to the store and to the output buffer. *)
Lemma commit_spec w :
  exists l,
    mem w !! l = None /\
    front (out (src (commit w))) = Some l /\
    mem (commit w) !! l = Some (back (out (src w))) /\
    back (out (src (commit w))) = [] /\
    (forall l', l' <> l -> mem (commit w) !! l' = mem w !! l') /\
    stream (commit w) = stream w /\
    trace (commit w) = trace w ++ [EvLock OutMu; EvUnlock OutMu].
Proof.
  exists (make (length (back (out (src w)))) (mem w)).1.
  unfold commit. simpl. repeat split.
  - apply not_elem_of_dom, is_fresh.
  - apply (copy_full _ _ _ (replicate (length (back (out (src w)))) x00)).
    + apply lookup_insert_eq.
    + apply length_replicate.
  - intros l' Hne. rewrite copy_other by done. by rewrite lookup_insert_ne.
  - by rewrite <- app_assoc.
Qed.

(** Storage that exists before an iteration has the same bytes after it. *)
Lemma cameraIter_mem ready w l bs :
  mem w !! l = Some bs -> mem (cameraIter enc ready w) !! l = Some bs.
Proof.
  intros Hl. unfold cameraIter, popBuffer.
  destruct (TimeoutPopBuffer ready (stream w)) as [b s]. simpl.
  case_decide; [done|].
  unfold encodeToBack. destruct (Encode enc _) as [written [e|]]; cbn -[commit]; [done|].
  match goal with |- context [commit ?w0] =>
    destruct (commit_spec w0) as (l0 & Hfresh & _ & _ & _ & Hother & _) end.
  simpl in *. rewrite Hother; [done|]. intros ->. congruence.
Qed.

End acquisition.

(** ** The request handler of the live server *)

Section handler.

Import Live.

Lemma calls_app s tr1 tr2 : calls s (tr1 ++ tr2) = calls s tr1 ++ calls s tr2.
Proof. destruct s; apply omap_app. Qed.

Lemma applyGain_spec env r w :
  let str := FormValue (req_form r) "gain" in
  let v := (ParseFloat env str).1 in
  mem (applyGain env r w) = mem w /\
  stream (applyGain env r w) = stream w /\
  out (src (applyGain env r w)) = out (src w) /\
  exposure (src (applyGain env r w)) = exposure (src w) /\
  gain (src (applyGain env r w)) =
    (if negb (String.eqb str "") && float_ne v (gain (src w)) then v else gain (src w)) /\
  trace (applyGain env r w) = trace w ++ gainEvents env r w.
Proof.
  unfold applyGain, gainEvents. cbn zeta.
  destruct (String.eqb _ ""); simpl; [by rewrite app_nil_r|].
  destruct (ParseFloat env _) as [v e]; simpl.
  destruct (float_ne v _); simpl; [|by rewrite app_nil_r].
  by rewrite <- !app_assoc.
Qed.

Lemma applyExposure_spec env r w :
  let str := FormValue (req_form r) "exposure" in
  let v := (ParseFloat env str).1 in
  mem (applyExposure env r w) = mem w /\
  stream (applyExposure env r w) = stream w /\
  out (src (applyExposure env r w)) = out (src w) /\
  gain (src (applyExposure env r w)) = gain (src w) /\
  exposure (src (applyExposure env r w)) =
    (if negb (String.eqb str "") && float_ne v (exposure (src w)) then v else exposure (src w)) /\
  trace (applyExposure env r w) = trace w ++ exposureEvents env r w.
Proof.
  unfold applyExposure, exposureEvents. cbn zeta.
  destruct (String.eqb _ ""); simpl; [by rewrite app_nil_r|].
  destruct (ParseFloat env _) as [v e]; simpl.
  destruct (float_ne v _); simpl; [|by rewrite app_nil_r].
  by rewrite <- !app_assoc.
Qed.

Lemma writeFront_spec env rw w :
  mem (writeFront env rw w).2 = mem w /\
  stream (writeFront env rw w).2 = stream w /\
  src (writeFront env rw w).2 = src w /\
  trace (writeFront env rw w).2 = trace w ++ writeEvents env w /\
  (writeFront env rw w).1 =
    match writeErr env with
    | None => Write (bytes_of (mem w) (front (out (src w)))) rw
    | Some _ => rw
    end.
Proof.
  unfold writeFront, writeEvents.
  destruct (writeErr env); simpl; by rewrite <- !app_assoc.
Qed.

(** What one request does, in full. *)
Lemma servePNG_spec env r rw w :
  let w' := (servePNG env r rw w).2 in
  mem w' = mem w /\
  stream w' = stream w /\
  out (src w') = out (src w) /\
  trace w' = trace w ++ requestEvents env r w /\
  (servePNG env r rw w).1 =
    (if req_done r then rw else
     match writeErr env with
     | None => Write (bytes_of (mem w) (front (out (src w)))) rw
     | Some _ => rw
     end).
Proof.
  unfold servePNG, requestEvents. destruct (req_done r); simpl.
  { by rewrite <- !app_assoc. }
  set (w0 := emit (EvLock Mu) w).
  destruct (applyGain_spec env r w0) as (Hm1 & Hs1 & Ho1 & _ & _ & Ht1).
  destruct (applyExposure_spec env r (applyGain env r w0)) as (Hm2 & Hs2 & Ho2 & _ & _ & Ht2).
  destruct (writeFront_spec env rw (applyExposure env r (applyGain env r w0)))
    as (Hm3 & Hs3 & Hsrc3 & Ht3 & Hrw).
  rewrite Hm3, Hs3, Hsrc3, Ht3, Hrw, Hm2, Hs2, Ho2, Ht2, Hm1, Hs1, Ho1, Ht1.
  repeat split; try done.
  unfold writeEvents. rewrite Hm2, Ho2, Hm1, Ho1. simpl.
  unfold exposureEvents. 
  destruct (applyGain_spec env r w0) as (_ & _ & _ & -> & _ & _). simpl.
  by rewrite <- !app_assoc.
Qed.

Lemma writeEvents_calls s env w : calls s (writeEvents env w) = [].
Proof. unfold writeEvents. destruct s, (writeErr env); done. Qed.

Lemma servePNG_setting s env r rw w :
  req_done r = false ->
  let w' := (servePNG env r rw w).2 in
  calls s (trace w') =
    calls s (trace w) ++ (if applies s env r w then [requested s env r] else []) /\
  current s (src w') =
    (if applies s env r w then requested s env r else current s (src w)).
Proof.
  intros Hd w'. subst w'. split.
  - destruct (servePNG_spec env r rw w) as (_ & _ & _ & -> & _).
    rewrite calls_app. f_equal.
    unfold requestEvents. rewrite Hd.
    change (EvLock Mu :: ?l) with ([EvLock Mu] ++ l).
    rewrite !calls_app, writeEvents_calls, app_nil_r.
    unfold gainEvents, exposureEvents, applies, requested.
    destruct s; simpl;
      repeat match goal with
             | |- context [if ?b then _ else _] => destruct b
             end; done.
  - unfold servePNG. rewrite Hd.
    set (w0 := emit (EvLock Mu) w).
    destruct (applyGain_spec env r w0) as (_ & _ & _ & He1 & Hg1 & _).
    destruct (applyExposure_spec env r (applyGain env r w0)) as (_ & _ & _ & Hg2 & He2 & _).
    destruct (writeFront_spec env rw (applyExposure env r (applyGain env r w0)))
      as (_ & _ & -> & _ & _).
    unfold applies, requested.
    destruct s; simpl.
    + by rewrite Hg2, Hg1.
    + by rewrite He2, He1.
Qed.

End handler.

(** ** float64 comparison *)

Section floats.

Lemma float_ne_refl (v : float64) : is_nan v = false -> float_ne v v = false.
Proof.
  unfold float_ne, SFeqb, SFcompare.
  destruct v as [[]|[]| |[] m e]; simpl; try done; intros _;
    rewrite Z.compare_refl, Pos.compare_cont_refl; done.
Qed.

End floats.

(** ** Goroutines side by side *)

Section schedule.

Import Live.

Variable enc : Encoder.

(** Storage that exists keeps its bytes through any schedule of loop
    iterations and requests. *)
Lemma serve_mem acquiring steps : forall w resps l bs,
  mem w !! l = Some bs -> mem (serve enc acquiring steps w resps).1 !! l = Some bs.
Proof.
  induction steps as [|[ready|env r] steps IH]; intros w resps l bs Hl; simpl; [done| |].
  - apply IH. destruct acquiring; [by apply cameraIter_mem | done].
  - destruct (servePNG env r newResponse w) as [rw w'] eqn:E.
    apply IH. destruct (servePNG_spec env r newResponse w) as (Hm & _).
    rewrite E in Hm. simpl in Hm. by rewrite Hm.
Qed.

End schedule.

(** ** Buffers and the published payload *)

Section buffers.

Import Live Samples.

(** C1.  In every iteration of the acquisition loop, whatever the pop
    yields (a Success buffer, a buffer with a Timeout or device error
    status, or nothing) and whatever the encoder then does (succeed or
    fail), the iteration pops once and makes exactly one [PushBuffer] call,
    for the buffer it popped; so the pool of the stream is as large after
    the iteration, and after any number of iterations, as before. *)
Theorem recycle_exactly_once (enc : Encoder) (ready : option Frame) (w : World) :
  let b := (TimeoutPopBuffer ready (stream w)).1 in
  (exists evs,
     trace (cameraIter enc ready w) = trace w ++ evs /\
     pops evs = [b] /\ pushes evs = [b]) /\
  length (pool (stream (cameraIter enc ready w))) = length (pool (stream w)) /\
  (forall ticks,
     length (pool (stream (cameraLoop enc ticks w))) = length (pool (stream w))).
Proof.
  intros b. destruct (cameraIter_stream enc ready w) as (evs & Htr & Hpop & Hpush & Hlen).
  split; [by exists evs|]. split; [done|].
  intros ticks. apply cameraLoop_pool.
Qed.

(** The three outcomes of an iteration on a Success buffer with a failing
    encoder: the iteration ends like any other, the buffer is pushed back,
    the published slice and the store are untouched, and what the encoder
    wrote stays in the back buffer. *)
Lemma cameraIter_encode_failure (enc : Encoder) (f : Frame) (i : nat) (rest : list nat)
    (w : World) (written : list byte) (e : string) :
  pool (stream w) = i :: rest ->
  fr_status f = Success ->
  Encode enc (mkGray (fr_data f) (width (src w)) (height (src w))) = (written, Some e) ->
  let b := Some (mkBuffer i Success (fr_data f)) in
  let w' := cameraIter enc (Some f) w in
  front (out (src w')) = front (out (src w)) /\
  mem w' = mem w /\
  back (out (src w')) = back (out (src w)) ++ written /\
  pool (stream w') = rest ++ [i] /\
  trace w' = trace w ++ [EvPop b; EvLog e; EvLog "encode error buffer"; EvPush b].
Proof.
  intros Hpool Hst Henc b w'. subst b w'.
  unfold cameraIter, popBuffer, TimeoutPopBuffer. rewrite Hpool, Hst. simpl.
  unfold encodeToBack. simpl. rewrite Henc. simpl.
  rewrite <- !app_assoc. done.
Qed.

(** An encoder that fails before it writes leaves the output buffer as
    it found it. *)
Lemma cameraIter_encode_failure_clean (enc : Encoder) (f : Frame) (i : nat)
    (rest : list nat) (w : World) (e : string) :
  pool (stream w) = i :: rest ->
  fr_status f = Success ->
  Encode enc (mkGray (fr_data f) (width (src w)) (height (src w))) = ([], Some e) ->
  out (src (cameraIter enc (Some f) w)) = out (src w).
Proof.
  intros Hpool Hst Henc.
  destruct (cameraIter_encode_failure enc f i rest w [] e Hpool Hst Henc)
    as (Hf & _ & Hb & _).
  rewrite app_nil_r in Hb.
  destruct (out (src (cameraIter enc (Some f) w))), (out (src w)). simpl in *. congruence.
Qed.

(** Two worlds with the same image source and store, both with or both
    without a buffer in the stream, stay so through an iteration: what the
    loop publishes does not depend on which buffer carries a frame. *)
Lemma cameraIter_sim (enc : Encoder) (ready : option Frame) (w1 w2 : World) :
  src w1 = src w2 -> mem w1 = mem w2 ->
  (pool (stream w1) = [] <-> pool (stream w2) = []) ->
  src (cameraIter enc ready w1) = src (cameraIter enc ready w2) /\
  mem (cameraIter enc ready w1) = mem (cameraIter enc ready w2) /\
  (pool (stream (cameraIter enc ready w1)) = []
   <-> pool (stream (cameraIter enc ready w2)) = []).
Proof.
  intros Hsrc Hmem Hpool. split; [|split].
  - destruct w1 as [s1 m1 [p1] t1], w2 as [s2 m2 [p2] t2]. simpl in *. subst.
    unfold cameraIter, popBuffer, TimeoutPopBuffer. simpl.
    destruct ready as [f|]; [|done].
    destruct p1 as [|i1 r1], p2 as [|i2 r2]; simpl;
      [done | discriminate (proj1 Hpool eq_refl) | discriminate (proj2 Hpool eq_refl) |].
    case_decide; [done|]. unfold encodeToBack. simpl.
    by destruct (Encode enc _) as [written [e|]].
  - destruct w1 as [s1 m1 [p1] t1], w2 as [s2 m2 [p2] t2]. simpl in *. subst.
    unfold cameraIter, popBuffer, TimeoutPopBuffer. simpl.
    destruct ready as [f|]; [|done].
    destruct p1 as [|i1 r1], p2 as [|i2 r2]; simpl;
      [done | discriminate (proj1 Hpool eq_refl) | discriminate (proj2 Hpool eq_refl) |].
    case_decide; [done|]. unfold encodeToBack. simpl.
    by destruct (Encode enc _) as [written [e|]].
  - destruct (cameraIter_stream enc ready w1) as (_ & _ & _ & _ & H1).
    destruct (cameraIter_stream enc ready w2) as (_ & _ & _ & _ & H2).
    rewrite <- !length_zero_iff_nil, H1, H2, !length_zero_iff_nil. exact Hpool.
Qed.

Lemma cameraLoop_sim (enc : Encoder) (ticks : list (option Frame)) : forall w1 w2,
  src w1 = src w2 -> mem w1 = mem w2 ->
  (pool (stream w1) = [] <-> pool (stream w2) = []) ->
  src (cameraLoop enc ticks w1) = src (cameraLoop enc ticks w2) /\
  mem (cameraLoop enc ticks w1) = mem (cameraLoop enc ticks w2).
Proof.
  induction ticks as [|t ticks IH]; intros w1 w2 Hsrc Hmem Hpool; simpl; [done|].
  destruct (cameraIter_sim enc t w1 w2 Hsrc Hmem Hpool) as (H1 & H2 & H3).
  by apply IH.
Qed.

(** A failed encoding that wrote nothing leaves the image source alone. *)
Lemma cameraIter_encode_failure_src (enc : Encoder) (f : Frame) (i : nat)
    (rest : list nat) (w : World) (e : string) :
  pool (stream w) = i :: rest ->
  fr_status f = Success ->
  Encode enc (mkGray (fr_data f) (width (src w)) (height (src w))) = ([], Some e) ->
  src (cameraIter enc (Some f) w) = src w.
Proof.
  intros Hpool Hst Henc.
  unfold cameraIter, popBuffer, TimeoutPopBuffer. rewrite Hpool, Hst. simpl.
  unfold encodeToBack. simpl. rewrite Henc. simpl.
  destruct w as [[ex g wd ht ps [fr bk]] m st t]. simpl. by rewrite app_nil_r.
Qed.

(** The encoder of [cameraThread] writes nothing when it fails. *)
Lemma bufferEncoder_failure (compress : Gray -> list byte) (img : Gray) (e : string) :
  (Encode (bufferEncoder compress) img).2 = Some e ->
  Encode (bufferEncoder compress) img = ([], Some e).
Proof.
  unfold bufferEncoder. simpl.
  destruct (_ || _)%bool; simpl; [|discriminate]. by intros [= <-].
Qed.

(** C2.  When the encoder of [cameraThread] fails on a popped Success
    frame, the loop goes on with the next iteration; the buffer is pushed
    back; the encoder has written nothing, so the output buffer, published
    slice and back buffer alike, and the store are exactly as before the
    iteration; and after any later run of iterations the image source and
    the store, hence every later published payload, are what the same run
    gives when the failed frame is never popped: nothing of the failed
    frame appears in any later payload. *)
Theorem encode_failure_drops_frame (compress : Gray -> list byte) (f : Frame)
    (i : nat) (rest : list nat) (w : World) (e : string) :
  pool (stream w) = i :: rest ->
  fr_status f = Success ->
  (Encode (bufferEncoder compress)
          (mkGray (fr_data f) (width (src w)) (height (src w)))).2 = Some e ->
  let enc := bufferEncoder compress in
  let b := Some (mkBuffer i Success (fr_data f)) in
  let w' := cameraIter enc (Some f) w in
  (forall ticks, cameraLoop enc (Some f :: ticks) w = cameraLoop enc ticks w') /\
  trace w' = trace w ++ [EvPop b; EvLog e; EvLog "encode error buffer"; EvPush b] /\
  pool (stream w') = rest ++ [i] /\
  out (src w') = out (src w) /\
  mem w' = mem w /\
  (forall ticks,
     src (cameraLoop enc ticks w') = src (cameraLoop enc ticks w) /\
     mem (cameraLoop enc ticks w') = mem (cameraLoop enc ticks w) /\
     bytes_of (mem (cameraLoop enc ticks w')) (front (out (src (cameraLoop enc ticks w'))))
     = bytes_of (mem (cameraLoop enc ticks w)) (front (out (src (cameraLoop enc ticks w))))).
Proof.
  intros Hpool Hst Herr enc b w'. subst enc b w'.
  apply bufferEncoder_failure in Herr.
  destruct (cameraIter_encode_failure (bufferEncoder compress) f i rest w [] e Hpool Hst Herr)
    as (Hf & Hm & Hb & Hp & Ht).
  rewrite app_nil_r in Hb.
  assert (Hout : out (src (cameraIter (bufferEncoder compress) (Some f) w)) = out (src w)).
  { destruct (out (src (cameraIter _ (Some f) w))), (out (src w)). simpl in *. congruence. }
  assert (Hsrc : src (cameraIter (bufferEncoder compress) (Some f) w) = src w).
  { by apply (cameraIter_encode_failure_src _ f i rest w e). }
  split; [done|]. split; [exact Ht|]. split; [exact Hp|].
  split; [exact Hout|]. split; [exact Hm|].
  intros ticks.
  destruct (cameraLoop_sim (bufferEncoder compress) ticks
              (cameraIter (bufferEncoder compress) (Some f) w) w Hsrc Hm) as [H1 H2].
  { rewrite Hp, Hpool. split; [by destruct rest | done]. }
  by rewrite H1, H2.
Qed.

Lemma encode_failure_drops_frame_witness :
  out (src (cameraIter pngLike (Some (mkFrame Success [x01; x02])) noRegion))
  = out (src noRegion) /\
  length (pool (stream (cameraIter pngLike (Some (mkFrame Success [x01; x02])) noRegion)))
  = 2.
Proof.
  destruct (encode_failure_drops_frame (fun img => [x89; x50] ++ Pix img)
              (mkFrame Success [x01; x02]) 0 [1] noRegion
              "png: invalid format: invalid image size" eq_refl eq_refl eq_refl)
    as (_ & _ & Hp & Hout & _).
  split; [exact Hout|]. unfold pngLike. by rewrite Hp.
Defined.

(** C6.  Over any run of consecutive iterations whose pops yield no
    Success status, the published slice and its bytes are the same before
    and after the run, every popped buffer is pushed back in order, one per
    iteration, and the pool is as large as before. *)
Theorem failed_pops_keep_payload (enc : Encoder) (ticks : list (option Frame)) (w : World) :
  Forall not_success ticks ->
  let w' := cameraLoop enc ticks w in
  front (out (src w')) = front (out (src w)) /\
  bytes_of (mem w') (front (out (src w'))) = bytes_of (mem w) (front (out (src w))) /\
  (exists evs,
     trace w' = trace w ++ evs /\ pushes evs = pops evs /\
     length (pops evs) = length ticks) /\
  length (pool (stream w')) = length (pool (stream w)).
Proof.
  intros Hall w'. subst w'.
  destruct (cameraLoop_not_success enc ticks w Hall) as (evs & Hsrc & Hmem & Htr & Hpp & Hlen).
  rewrite Hsrc, Hmem. repeat split; [by exists evs | apply cameraLoop_pool].
Qed.

Lemma failed_pops_keep_payload_witness :
  Forall not_success threeTimeouts /\
  bytes_of (mem (cameraLoop signatureEncoder threeTimeouts published))
           (front (out (src (cameraLoop signatureEncoder threeTimeouts published))))
  = bytes_of (mem published) (front (out (src published))) /\
  length (pool (stream (cameraLoop signatureEncoder threeTimeouts published)))
  = length (pool (stream published)).
Proof.
  assert (H : Forall not_success threeTimeouts) by (repeat constructor; discriminate).
  split; [exact H|].
  destruct (failed_pops_keep_payload signatureEncoder threeTimeouts published H)
    as (_ & Hb & _ & Hp).
  split; [exact Hb | exact Hp].
Defined.

(** C10.  Every commit puts a newly allocated slice into [out.front],
    holding a copy of the contents of the write buffer, and then empties
    the write buffer; no other storage changes.  Hence storage that exists,
    and so every slice that was ever published, keeps its bytes through any
    later schedule of loop iterations and requests. *)
Theorem published_slice_fresh_and_stable :
  (forall w : World, exists l : loc,
     mem w !! l = None /\
     front (out (src (commit w))) = Some l /\
     mem (commit w) !! l = Some (back (out (src w))) /\
     back (out (src (commit w))) = [] /\
     (forall l', l' <> l -> mem (commit w) !! l' = mem w !! l')) /\
  (forall (enc : Encoder) (steps : list Step) (w : World)
          (resps : list ResponseWriter) (l : loc) (bs : list byte),
     mem w !! l = Some bs ->
     mem (serve enc true steps w resps).1 !! l = Some bs).
Proof.
  split.
  - intros w. destruct (commit_spec w) as (l & H1 & H2 & H3 & H4 & H5 & _).
    exists l. done.
  - intros enc steps w resps l bs. apply serve_mem.
Qed.

Lemma published_slice_fresh_and_stable_witness :
  mem published !! 1%positive = Some [x89; x50; x01; x02] /\
  mem (serve signatureEncoder true oneFrameOneRequest published []).1 !! 1%positive
  = Some [x89; x50; x01; x02].
Proof.
  assert (H : mem published !! 1%positive = Some [x89; x50; x01; x02])
    by (vm_compute; reflexivity).
  split; [exact H|].
  exact (proj2 published_slice_fresh_and_stable
           signatureEncoder oneFrameOneRequest published [] 1%positive _ H).
Defined.

(** C8.  A request served while nothing has been published, [out.front]
    still being the nil slice [main] starts with, gets an empty body and
    status 200: no error reply is produced, and a request that is not
    already cancelled makes one write of zero bytes. *)
Theorem read_before_first_commit (env : HandlerEnv) (r : Request) (w : World) :
  front (out (src w)) = None ->
  let rw := (servePNG env r newResponse w).1 in
  rw_body rw = [] /\
  rw_contentType rw = None /\
  final_status rw = StatusOK /\
  (req_done r = false -> EvWrite [] ∈ requestEvents env r w).
Proof.
  intros Hfront rw. subst rw.
  destruct (servePNG_spec env r newResponse w) as (_ & _ & _ & _ & ->).
  rewrite Hfront. simpl. split; [|split; [|split]].
  - by destruct (req_done r), (writeErr env).
  - by destruct (req_done r), (writeErr env).
  - by destruct (req_done r), (writeErr env).
  - intros Hd. unfold requestEvents, writeEvents. rewrite Hd, Hfront. simpl.
    rewrite !elem_of_cons, !elem_of_app, !elem_of_cons. set_solver.
Qed.

Lemma read_before_first_commit_witness :
  front (out (src (newWorld (mainEnv [])))) = None /\
  rw_body (servePNG quietDevice (get []) newResponse (newWorld (mainEnv []))).1 = [] /\
  final_status (servePNG quietDevice (get []) newResponse (newWorld (mainEnv []))).1 = 200.
Proof.
  split; [reflexivity|].
  destruct (read_before_first_commit quietDevice (get []) (newWorld (mainEnv [])) eq_refl)
    as (Hb & _ & Hs & _).
  split; [exact Hb | exact Hs].
Defined.

End buffers.

(** ** Settings carried by a request *)

Section settings.

Import Live Samples.




(** C3 as stated fails: a request with gain=abc, which does not parse,
    reaches the device.  [ParseFloat] returns 0 with its error, 0 differs
    from the recorded 16, so [SetGain(0)] is called and 0 is recorded. *)
Lemma malformed_gain_reaches_device :
  let r := get [("gain", "abc")] in
  let w' := (servePNG quietDevice r newResponse published).2 in
  ParseFloat quietDevice "abc" = (S754_zero false, Some "invalid syntax") /\
  ~ (gain_calls (trace w') = gain_calls (trace published) /\
     gain (src w') = gain (src published)).
Proof.
  split; [reflexivity|]. intros [H _]. vm_compute in H. discriminate H.
Qed.

(** C3, amended.  When a setting is present in the request and does not
    parse, the request is handled as if no change was requested only when
    its context is already done or the value is the empty string, which
    the handler takes for an absent parameter.  Otherwise the error is
    dropped and the value [ParseFloat] returned with it is treated like any
    requested value: if it differs from the recorded value there is one
    device call with it and it is recorded; if it is equal there is no call
    and the recorded value stays. *)
Theorem malformed_value_is_compared (s : setting) (env : HandlerEnv) (r : Request)
    (rw : ResponseWriter) (w : World) (e : string) :
  (ParseFloat env (FormValue (req_form r) (key s))).2 = Some e ->
  let str := FormValue (req_form r) (key s) in
  let v := requested s env r in
  let w' := (servePNG env r rw w).2 in
  if negb (req_done r) && negb (String.eqb str "") && float_ne v (current s (src w))
  then calls s (trace w') = calls s (trace w) ++ [v] /\ current s (src w') = v
  else calls s (trace w') = calls s (trace w) /\ current s (src w') = current s (src w).
Proof.
  intros _ str v w'. subst str v w'.
  destruct (req_done r) eqn:Hd; simpl.
  - unfold servePNG. rewrite Hd. simpl. rewrite !calls_app.
    split; [|done]. destruct s; simpl; by rewrite !app_nil_r.
  - destruct (servePNG_setting s env r rw w Hd) as (Hc & Hs).
    unfold applies in Hc, Hs. fold (requested s env r) in Hc, Hs.
    destruct (negb (String.eqb _ "") && float_ne _ _).
    + done.
    + by rewrite app_nil_r in Hc.
Qed.

Lemma malformed_value_is_compared_witness :
  let r := get [("exposure", "1e")] in
  let w' := (servePNG quietDevice r newResponse published).2 in
  exposure_calls (trace w') = exposure_calls (trace published) ++ [S754_zero false] /\
  exposure (src w') = S754_zero false.
Proof.
  intros r w'.
  exact (malformed_value_is_compared ExposureSetting quietDevice r newResponse published
           "invalid syntax" eq_refl).
Defined.

End settings.

(** ** Locks, startup and error replies *)

Section replies.

Import Live Samples.

(** C4 as stated fails: the handler writes the response body while it
    holds [is.out.mu]. *)
Lemma reader_writes_under_publish_lock :
  trace (servePNG quietDevice (get []) newResponse published).2
  = trace published ++ requestEvents quietDevice (get []) published /\
  requestEvents quietDevice (get []) published
  = [EvLock Mu; EvLock OutMu; EvWrite [x89; x50; x01; x02]; EvUnlock OutMu; EvUnlock Mu] /\
  holds_at_write OutMu false (requestEvents quietDevice (get []) published) = true.
Proof. vm_compute. repeat split. Qed.

(** C4, amended.  A request that is not cancelled takes [is.out.mu] before
    [w.Write(is.out.front)] and releases it only when the handler returns:
    the lock is held at every point from the lock to the end of the write
    and its logging, and at none of these points can the commit of the
    camera thread, which begins by taking the same lock, be scheduled; it
    can once the handler has returned. *)
Theorem publish_lock_held_across_write (env : HandlerEnv) (r : Request)
    (rw : ResponseWriter) (w : World) :
  req_done r = false ->
  let payload := bytes_of (mem w) (front (out (src w))) in
  exists pre tail : list event,
    requestEvents env r w
    = pre ++ [EvLock OutMu; EvWrite payload] ++ tail ++ [EvUnlock OutMu; EvUnlock Mu] /\
    trace (servePNG env r rw w).2 = trace w ++ requestEvents env r w /\
    holds_at_write OutMu false (requestEvents env r w) = true /\
    (forall n,
       held OutMu false (pre ++ EvLock OutMu :: take n (EvWrite payload :: tail)) = true /\
       admissible unlocked
         (tagged RequestThread (pre ++ EvLock OutMu :: take n (EvWrite payload :: tail))
          ++ tagged CameraThread commitEvents) = false) /\
    admissible unlocked
      (tagged RequestThread (requestEvents env r w) ++ tagged CameraThread commitEvents)
    = true /\
    (forall w0, trace (commit w0) = trace w0 ++ commitEvents).
Proof.
  intros Hd payload. subst payload.
  exists (EvLock Mu :: gainEvents env r w ++ exposureEvents env r w),
         (match writeErr env with Some e => [EvLog e] | None => [] end).
  destruct (servePNG_spec env r rw w) as (_ & _ & _ & Htr & _).
  split; [|split; [exact Htr|]].
  { unfold requestEvents, writeEvents. rewrite Hd. simpl. by rewrite <- !app_assoc. }
  unfold requestEvents, writeEvents, gainEvents, exposureEvents. rewrite Hd.
  destruct (negb _ && float_ne _ (gain (src w)));
    destruct (negb _ && float_ne _ (exposure (src w)));
    destruct (writeErr env) as [e|];
    (split; [reflexivity|]);
    (split; [intros [|[|[|n]]]; split; reflexivity|]);
    (split; [reflexivity|]);
    intros w0; by destruct (commit_spec w0) as (? & _ & _ & _ & _ & _ & _ & ->).
Qed.

Lemma publish_lock_held_across_write_witness :
  exists pre tail : list event,
    requestEvents quietDevice (get [("gain", "20")]) published
    = pre ++ [EvLock OutMu; EvWrite [x89; x50; x01; x02]] ++ tail
      ++ [EvUnlock OutMu; EvUnlock Mu] /\
    admissible unlocked
      (tagged RequestThread (pre ++ [EvLock OutMu; EvWrite [x89; x50; x01; x02]])
       ++ tagged CameraThread commitEvents) = false.
Proof.
  destruct (publish_lock_held_across_write quietDevice (get [("gain", "20")])
              newResponse published eq_refl)
    as (pre & tail & Hev & _ & _ & Hn & _).
  exists pre, tail. split; [exact Hev|].
  exact (proj2 (Hn 1)).
Defined.

(** Once a device has been counted, nothing that fails later stops [main]
    before the signal. *)
Lemma main_quits_once_devices_found (env : MainEnv) :
  numDevicesErr env = None -> numDevices env <> 0 -> exit (main env) = Quit.
Proof.
  intros He Hn. unfold main. rewrite He.
  apply Nat.eqb_neq in Hn. rewrite Hn.
  destruct (cameraStart _ _) as [err w]. by destruct (serve _ _ _ _ _).
Qed.

(** C5.  A stream that cannot be created does not abort the process:
    [cameraThread] returns the error, [main] drops it, nothing is logged
    about it, and the server answers requests with the empty payload until
    the signal arrives.  The same holds when the second buffer cannot be
    allocated.  Only the device count aborts with a diagnostic. *)
Theorem stream_failure_is_not_fatal :
  (cameraThread (streamEnv (noStream [])) signatureEncoder
     [Some (mkFrame Success [x01; x02])] (newWorld (noStream []))).1
  = Some "arv-stream-error: cannot create stream" /\
  exit (main (noStream oneFrameOneRequest)) = Quit /\
  log_lines (trace (world (main (noStream oneFrameOneRequest))))
  = ["Found camera: %s Exposure: %f, Gain: %f"; "Listening...";
     "Recieved signal: %s"; "http: Server closed"; "Quitting."] /\
  responses (main (noStream oneFrameOneRequest)) = [mkResponseWriter (Some 200) None []] /\
  exit (main (noBuffer oneFrameOneRequest)) = Quit /\
  log_lines (trace (world (main (noBuffer oneFrameOneRequest))))
  = log_lines (trace (world (main (noStream oneFrameOneRequest)))) /\
  exit (main noDevices) = Fatal "No devices found. Exiting.".
Proof. vm_compute. repeat split. Qed.


Lemma Error_pending msg rw :
  reply_pending rw -> reply_is_error (Error msg StatusInternalServerError rw).
Proof.
  unfold reply_pending, reply_is_error.
  destruct rw as [[c|] ct body]; simpl; [discriminate|done].
Qed.

Lemma Error_again msg rw :
  reply_is_error rw -> reply_is_error (Error msg StatusInternalServerError rw).
Proof.
  unfold reply_is_error.
  destruct rw as [[c|] ct body]; simpl; [done|]. by intros [? _].
Qed.




End replies.

(** ** The camera thread from start to stop *)

Section camera_thread.

Import Live Samples Scenarios.

Variable enc : Encoder.

Lemma count_ev_app p tr1 tr2 : count_ev p (tr1 ++ tr2) = count_ev p tr1 + count_ev p tr2.
Proof. unfold count_ev. by rewrite List.filter_app, length_app. Qed.

Lemma gain_calls_loop evs : forallb loop_event evs = true -> gain_calls evs = [].
Proof.
  induction evs as [|e evs IH]; [done|]. simpl. intros [He Hrest]%andb_prop.
  destruct e; try discriminate; simpl; auto.
Qed.

Lemma exposure_calls_loop evs : forallb loop_event evs = true -> exposure_calls evs = [].
Proof.
  induction evs as [|e evs IH]; [done|]. simpl. intros [He Hrest]%andb_prop.
  destruct e; try discriminate; simpl; auto.
Qed.

Lemma count_loop p evs :
  (forall e, loop_event e = true -> p e = false) ->
  forallb loop_event evs = true -> count_ev p evs = 0.
Proof.
  intros Hp. induction evs as [|e evs IH]; [done|]. simpl.
  intros [He Hrest]%andb_prop. unfold count_ev in *. simpl.
  rewrite (Hp e He). auto.
Qed.

(** One iteration: which events it adds, and which fields it leaves. *)
Lemma cameraIter_events ready w :
  exists evs,
    trace (cameraIter enc ready w) = trace w ++ evs /\
    forallb loop_event evs = true /\
    count_ev is_pop evs = 1 /\
    exposure (src (cameraIter enc ready w)) = exposure (src w) /\
    gain (src (cameraIter enc ready w)) = gain (src w) /\
    width (src (cameraIter enc ready w)) = width (src w) /\
    height (src (cameraIter enc ready w)) = height (src w) /\
    payloadSize (src (cameraIter enc ready w)) = payloadSize (src w).
Proof.
  unfold cameraIter, popBuffer.
  destruct (TimeoutPopBuffer ready (stream w)) as [b s]. simpl.
  case_decide.
  - exists [EvPop b; EvPush b]. simpl. by rewrite <- app_assoc.
  - unfold encodeToBack.
    destruct (Encode enc _) as [written [e|]]; simpl.
    + exists [EvPop b; EvLog e; EvLog "encode error buffer"; EvPush b]. simpl.
      by rewrite <- !app_assoc.
    + exists [EvPop b; EvPush b; EvLock OutMu; EvUnlock OutMu]. simpl.
      by rewrite <- !app_assoc.
Qed.

Lemma cameraLoop_events ticks : forall w,
  exists evs,
    trace (cameraLoop enc ticks w) = trace w ++ evs /\
    forallb loop_event evs = true /\
    count_ev is_pop evs = length ticks /\
    exposure (src (cameraLoop enc ticks w)) = exposure (src w) /\
    gain (src (cameraLoop enc ticks w)) = gain (src w) /\
    width (src (cameraLoop enc ticks w)) = width (src w) /\
    height (src (cameraLoop enc ticks w)) = height (src w) /\
    payloadSize (src (cameraLoop enc ticks w)) = payloadSize (src w).
Proof.
  induction ticks as [|t ticks IH]; intros w; simpl.
  - exists []. by rewrite app_nil_r.
  - destruct (cameraIter_events t w) as (evs1 & Ht1 & Hl1 & Hp1 & He1 & Hg1 & Hw1 & Hh1 & Hs1).
    destruct (IH (cameraIter enc t w)) as (evs2 & Ht2 & Hl2 & Hp2 & He2 & Hg2 & Hw2 & Hh2 & Hs2).
    exists (evs1 ++ evs2).
    rewrite Ht2, Ht1, He2, He1, Hg2, Hg1, Hw2, Hw1, Hh2, Hh1, Hs2, Hs1.
    rewrite <- app_assoc, forallb_app, Hl1, Hl2, count_ev_app, Hp1, Hp2. done.
Qed.

(** X3.  The loop of the camera thread leaves the settings alone.  Over any
    number of iterations it adds only pops, pushes, log lines and the
    lock and unlock of [is.out.mu] to the trace, one pop per iteration; it
    makes no [SetGain] or [SetExposureTime] call, and exposure, gain,
    width, height and payload size of the image source stay as they were. *)
Theorem cameraLoop_leaves_settings (ticks : list (option Frame)) (w : World) :
  exists evs,
    trace (cameraLoop enc ticks w) = trace w ++ evs /\
    forallb loop_event evs = true /\
    count_ev is_pop evs = length ticks /\
    gain_calls evs = [] /\ exposure_calls evs = [] /\
    exposure (src (cameraLoop enc ticks w)) = exposure (src w) /\
    gain (src (cameraLoop enc ticks w)) = gain (src w) /\
    width (src (cameraLoop enc ticks w)) = width (src w) /\
    height (src (cameraLoop enc ticks w)) = height (src w) /\
    payloadSize (src (cameraLoop enc ticks w)) = payloadSize (src w).
Proof.
  destruct (cameraLoop_events ticks w) as (evs & Ht & Hl & Hp & He & Hg & Hw & Hh & Hs).
  exists evs. repeat split; try done.
  - by apply gain_calls_loop.
  - by apply exposure_calls_loop.
Qed.

Lemma cameraStart_spec (env : StreamEnv) (w : World) :
  (cameraStart env w).1 = startupError env /\
  src (cameraStart env w).2 = src w /\
  mem (cameraStart env w).2 = mem w /\
  exists evs,
    trace (cameraStart env w).2 = trace w ++ evs /\
    match startupError env with
    | None =>
        evs = [EvPush (NewBuffer 0); EvPush (NewBuffer 1); EvStartAcquisition] /\
        pool (stream (cameraStart env w).2) = [0; 1]
    | Some _ =>
        count_ev is_start evs = 0 /\ count_ev is_stop evs = 0 /\
        count_ev is_pop evs = 0 /\
        count_ev is_close evs = match createStreamErr env with Some _ => 0 | None => 1 end
    end.
Proof.
  unfold cameraStart, startupError.
  destruct (createStreamErr env) as [e|]; simpl.
  { repeat split. exists []. by rewrite app_nil_r. }
  destruct (newBufferErr env 0) as [e0|]; simpl.
  { repeat split. by exists [EvStreamClose]. }
  destruct (newBufferErr env 1) as [e1|]; simpl.
  { repeat split. exists [EvPush (NewBuffer 0); EvStreamClose].
    by rewrite <- !app_assoc. }
  repeat split. eexists. split; [|done]. by rewrite <- !app_assoc.
Qed.

(** X1.  The startup of the camera thread.  It reports the first error among
    [CreateStream] and the two [NewBuffer] calls.  Without one, the new
    stream holds exactly the two buffers pushed into it and acquisition is
    started; with one, acquisition is not started, nothing is popped, and
    the stream is closed exactly when it had been created.  Image source
    and store are untouched either way. *)
Theorem cameraStart_outcome (env : StreamEnv) (w : World) :
  (cameraStart env w).1 = startupError env /\
  src (cameraStart env w).2 = src w /\
  mem (cameraStart env w).2 = mem w /\
  exists evs,
    trace (cameraStart env w).2 = trace w ++ evs /\
    match startupError env with
    | None =>
        evs = [EvPush (NewBuffer 0); EvPush (NewBuffer 1); EvStartAcquisition] /\
        pool (stream (cameraStart env w).2) = [0; 1]
    | Some _ =>
        count_ev is_start evs = 0 /\ count_ev is_stop evs = 0 /\
        count_ev is_pop evs = 0 /\
        count_ev is_close evs = match createStreamErr env with Some _ => 0 | None => 1 end
    end.
Proof. apply cameraStart_spec. Qed.

(** X2.  [cameraThread] pairs its calls.  Whatever fails and however many
    iterations run, [StartAcquisition] is called as often as
    [StopAcquisition] (once when the startup succeeded, never otherwise),
    the stream is closed exactly once when it was created and never when
    it was not, buffers are popped only after a successful startup, one per
    iteration, and the function returns the startup error. *)
Theorem cameraThread_pairs_calls (env : StreamEnv) (ticks : list (option Frame)) (w : World) :
  (cameraThread env enc ticks w).1 = startupError env /\
  exists evs,
    trace (cameraThread env enc ticks w).2 = trace w ++ evs /\
    count_ev is_start evs = count_ev is_stop evs /\
    count_ev is_start evs = match startupError env with Some _ => 0 | None => 1 end /\
    count_ev is_close evs = match createStreamErr env with Some _ => 0 | None => 1 end /\
    count_ev is_pop evs = match startupError env with Some _ => 0 | None => length ticks end.
Proof.
  unfold cameraThread.
  destruct (cameraStart_spec env w) as (Herr & _ & _ & evs & Htr & Hcase).
  destruct (cameraStart env w) as [err w1]. simpl in *. subst err.
  destruct (startupError env) as [e|] eqn:Hse.
  - split; [done|]. exists evs. destruct Hcase as (H1 & H2 & H3 & H4).
    rewrite H1, H2, H3. done.
  - destruct Hcase as [-> Hpool]. split; [done|].
    destruct (cameraLoop_events ticks w1) as (evs2 & Ht2 & Hl2 & Hp2 & _).
    exists ([EvPush (NewBuffer 0); EvPush (NewBuffer 1); EvStartAcquisition]
            ++ evs2 ++ [EvStopAcquisition; EvStreamClose]).
    split.
    { unfold cameraStop. simpl. rewrite Ht2, Htr. by rewrite <- !app_assoc. }
    assert (Hcs : createStreamErr env = None).
    { unfold startupError in Hse. by destruct (createStreamErr env). }
    rewrite Hcs, !count_ev_app, Hp2.
    rewrite !(count_loop _ evs2) by (done || by intros []).
    done.
Qed.

End camera_thread.

(** ** What the double buffer publishes *)

Section double_buffer.

Import Live Samples Scenarios.

Variable enc : Encoder.

Lemma cameraIter_latest ready w :
  pool (stream w) <> [] ->
  fails_before_writing enc ->
  back (out (src w)) = [] ->
  bytes_of (mem (cameraIter enc ready w)) (front (out (src (cameraIter enc ready w))))
  = default (bytes_of (mem w) (front (out (src w))))
            (encoded enc (width (src w)) (height (src w)) ready) /\
  back (out (src (cameraIter enc ready w))) = [] /\
  pool (stream (cameraIter enc ready w)) <> [].
Proof.
  intros Hpool Hclean Hback.
  destruct (pool (stream w)) as [|i rest] eqn:Hp; [done|].
  unfold cameraIter, popBuffer, TimeoutPopBuffer, encoded. rewrite Hp.
  destruct ready as [f|]; simpl.
  2:{ by rewrite Hp. }
  destruct (decide (fr_status f = Success)) as [Hs|Hs].
  2:{ case_decide; [|done]. simpl. split; [done|]. split; [done|]. by destruct rest. }
  case_decide; [done|].
  unfold encodeToBack. cbn -[commit].
  pose proof (Hclean (mkGray (fr_data f) (width (src w)) (height (src w)))) as Hc.
  destruct (Encode enc _) as [written [e|]]; cbn -[commit] in *.
  - rewrite (Hc e eq_refl), Hback. split; [done|]. split; [done|]. by destruct rest.
  - match goal with |- context [commit ?w0] =>
      destruct (commit_spec w0) as (l & _ & Hfront & Hl & Hb & _ & Hst & _) end.
    unfold bytes_of at 1. rewrite Hfront, Hl, Hb, Hst. cbn -[commit].
    rewrite Hback. split; [done|]. split; [done|]. by destruct rest.
Qed.

(** X4.  With an encoder that writes nothing when it fails, a stream that
    holds a buffer and an empty back buffer to begin with, the payload
    readers see after any number of iterations is exactly the encoding of
    the last frame that was popped with Success and encoded without error
    (the payload from before when there was no such frame), and the back
    buffer is empty again. *)
Theorem published_is_latest_encoding (ticks : list (option Frame)) (w : World) :
  pool (stream w) <> [] ->
  fails_before_writing enc ->
  back (out (src w)) = [] ->
  bytes_of (mem (cameraLoop enc ticks w)) (front (out (src (cameraLoop enc ticks w))))
  = latest enc (width (src w)) (height (src w)) ticks
           (bytes_of (mem w) (front (out (src w)))) /\
  back (out (src (cameraLoop enc ticks w))) = [].
Proof.
  intros Hpool Hclean. revert w Hpool.
  induction ticks as [|t ticks IH]; intros w Hpool Hback; simpl; [done|].
  destruct (cameraIter_latest t w Hpool Hclean Hback) as (Hb & Hback' & Hpool').
  destruct (cameraIter_events enc t w) as (_ & _ & _ & _ & _ & _ & Hw & Hh & _).
  destruct (IH (cameraIter enc t w) Hpool' Hback') as (H1 & H2).
  rewrite H1, H2, Hb, Hw, Hh. done.
Qed.

End double_buffer.

Lemma published_is_latest_encoding_witness :
  bytes_of (Live.mem (Live.cameraLoop Samples.strictEncoder Scenarios.mixedTicks
                        Samples.started))
           (Live.front (Live.out (Live.src
              (Live.cameraLoop Samples.strictEncoder Scenarios.mixedTicks Samples.started))))
  = [x89; x50].
Proof.
  assert (Hclean : fails_before_writing Samples.strictEncoder).
  { intros img e. unfold Samples.strictEncoder. simpl.
    destruct (_ || _)%bool; [reflexivity | discriminate]. }
  assert (Hpool : Aravis.pool (Live.stream Samples.started) <> []) by discriminate.
  etransitivity.
  - exact (proj1 (published_is_latest_encoding Samples.strictEncoder Scenarios.mixedTicks
                    Samples.started Hpool Hclean eq_refl)).
  - vm_compute. reflexivity.
Defined.

(** ** Requests, one after the other *)

Section requests.

Import Live Samples Scenarios.

(** X5.  The handler keeps its locking discipline on every path.  It never
    locks a mutex it holds; every device call is made holding [mu] and
    [is.mu] but not [is.out.mu]; the body is written holding [mu] and
    [is.out.mu] but not [is.mu]; and when the handler returns, cancelled or
    not, it holds none of the three mutexes. *)
Theorem handler_lock_discipline (env : HandlerEnv) (r : Request)
    (rw : ResponseWriter) (w : World) :
  trace (servePNG env r rw w).2 = trace w ++ requestEvents env r w /\
  disciplined none_held (requestEvents env r w) = true /\
  (forall m, holding none_held (requestEvents env r w) m = false).
Proof.
  destruct (servePNG_spec env r rw w) as (_ & _ & _ & Htr & _).
  split; [exact Htr|].
  unfold requestEvents, writeEvents, gainEvents, exposureEvents.
  destruct (req_done r).
  { split; [reflexivity | by intros []]. }
  destruct (negb _ && float_ne _ (gain (src w)));
    destruct (negb _ && float_ne _ (exposure (src w)));
    destruct (writeErr env) as [e|];
    (split; [reflexivity | by intros []]).
Qed.

(** What a request does to a setting, cancelled requests included. *)
Lemma servePNG_setting_any (s : setting) (env : HandlerEnv) (r : Request)
    (rw : ResponseWriter) (w : World) :
  let touched := negb (req_done r) && applies s env r w in
  calls s (trace (servePNG env r rw w).2)
  = calls s (trace w) ++ (if touched then [requested s env r] else []) /\
  current s (src (servePNG env r rw w).2)
  = (if touched then requested s env r else current s (src w)).
Proof.
  destruct (req_done r) eqn:Hd; simpl.
  - unfold servePNG. rewrite Hd. simpl.
    rewrite !calls_app. split; [|done]. destruct s; simpl; by rewrite !app_nil_r.
  - apply servePNG_setting. exact Hd.
Qed.

(** X6.  A request whose context is already done is dropped: the response
    is not touched, image source, store and stream stay as they are, no
    setting is applied even when the request carries one, and the trace
    gains the lock of [mu], the log line and the unlock, nothing else. *)
Theorem cancelled_request_is_dropped (env : HandlerEnv) (r : Request)
    (rw : ResponseWriter) (w : World) :
  req_done r = true ->
  (servePNG env r rw w).1 = rw /\
  src (servePNG env r rw w).2 = src w /\
  mem (servePNG env r rw w).2 = mem w /\
  stream (servePNG env r rw w).2 = stream w /\
  trace (servePNG env r rw w).2
  = trace w ++ [EvLock Mu; EvLog "request canceled"; EvUnlock Mu] /\
  (forall s, calls s (trace (servePNG env r rw w).2) = calls s (trace w)).
Proof.
  intros Hd.
  destruct (servePNG_spec env r rw w) as (Hm & Hs & _ & Htr & Hrw).
  unfold requestEvents in Htr. rewrite Hd in Htr, Hrw.
  repeat split; try done.
  - unfold servePNG. by rewrite Hd.
  - intros s. destruct (servePNG_setting_any s env r rw w) as [Hc _].
    rewrite Hd in Hc. simpl in Hc. by rewrite app_nil_r in Hc.
Qed.

Lemma cancelled_request_is_dropped_witness :
  (servePNG quietDevice cancelled newResponse published).1 = newResponse /\
  gain (src (servePNG quietDevice cancelled newResponse published).2) = float64_of_Z 16.
Proof.
  destruct (cancelled_request_is_dropped quietDevice cancelled newResponse published eq_refl)
    as (Hrw & Hsrc & _).
  split; [exact Hrw|]. rewrite Hsrc. reflexivity.
Defined.

(** X7.  A request that does not carry a setting leaves it alone, whatever
    else it carries: no device call for that setting, and the recorded
    value stays. *)
Theorem absent_setting_is_untouched (s : setting) (env : HandlerEnv) (r : Request)
    (rw : ResponseWriter) (w : World) :
  FormValue (req_form r) (key s) = "" ->
  calls s (trace (servePNG env r rw w).2) = calls s (trace w) /\
  current s (src (servePNG env r rw w).2) = current s (src w).
Proof.
  intros Habs.
  destruct (servePNG_setting_any s env r rw w) as [Hc Hs].
  unfold applies in Hc, Hs. rewrite Habs in Hc, Hs. simpl in Hc, Hs.
  rewrite andb_false_r in Hc, Hs. by rewrite app_nil_r in Hc.
Qed.

Lemma absent_setting_is_untouched_witness :
  exposure_calls (trace (servePNG quietDevice (get [("gain", "20")]) newResponse published).2)
  = exposure_calls (trace published) /\
  exposure (src (servePNG quietDevice (get [("gain", "20")]) newResponse published).2)
  = exposure (src published).
Proof.
  exact (absent_setting_is_untouched ExposureSetting quietDevice (get [("gain", "20")])
           newResponse published eq_refl).
Defined.

(** X8.  Serving the same request a second time changes no setting: when
    the value a setting parses to is not NaN, the second pass makes no
    device call for it and the recorded value is the one the first pass
    left, whether or not the first pass applied it. *)
Theorem second_pass_applies_nothing (s : setting) (env : HandlerEnv) (r : Request)
    (rw1 rw2 : ResponseWriter) (w : World) :
  is_nan (requested s env r) = false ->
  let w1 := (servePNG env r rw1 w).2 in
  let w2 := (servePNG env r rw2 w1).2 in
  calls s (trace w2) = calls s (trace w1) /\
  current s (src w2) = current s (src w1).
Proof.
  intros Hnan w1 w2. subst w1 w2.
  destruct (servePNG_setting_any s env r rw1 w) as [_ Hs1].
  destruct (servePNG_setting_any s env r rw2 (servePNG env r rw1 w).2) as [Hc2 Hs2].
  assert (Hno : negb (req_done r) && applies s env r (servePNG env r rw1 w).2 = false).
  { destruct (req_done r); [done|]. simpl in *. unfold applies in *.
    destruct (negb (String.eqb _ "")); [|done]. simpl in *.
    fold (requested s env r) in *. rewrite Hs1.
    destruct (float_ne (requested s env r) (current s (src w))) eqn:Hne.
    - by apply float_ne_refl.
    - exact Hne. }
  rewrite Hno in Hc2, Hs2. by rewrite app_nil_r in Hc2.
Qed.

Lemma second_pass_applies_nothing_witness :
  let r := get [("gain", "20"); ("exposure", "5000")] in
  let w1 := (servePNG quietDevice r newResponse published).2 in
  let w2 := (servePNG quietDevice r newResponse w1).2 in
  exposure_calls (trace w2) = exposure_calls (trace w1) /\
  exposure (src w2) = exposure (src w1).
Proof.
  intros r w1 w2.
  exact (second_pass_applies_nothing ExposureSetting quietDevice r newResponse newResponse
           published eq_refl).
Defined.

(** Requests only: what they are answered with and what they leave. *)
Lemma serve_requests (enc : Encoder) (acquiring : bool) (reqs : list (HandlerEnv * Request)) :
  forall (w : World) (resps : list ResponseWriter),
  let run := serve enc acquiring (map (fun q => Serve q.1 q.2) reqs) w resps in
  run.2 = resps ++ map (answer (bytes_of (mem w) (front (out (src w))))) reqs /\
  out (src run.1) = out (src w) /\
  mem run.1 = mem w /\
  stream run.1 = stream w.
Proof.
  induction reqs as [|[env r] reqs IH]; intros w resps; simpl.
  - by rewrite app_nil_r.
  - destruct (servePNG_spec env r newResponse w) as (Hm & Hs & Ho & _ & Hrw).
    destruct (servePNG env r newResponse w) as [rw w1]. simpl in *.
    destruct (IH w1 (resps ++ [rw])) as (H1 & H2 & H3 & H4).
    rewrite H1, H2, H3, H4, Hm, Hs, Ho, <- app_assoc. simpl.
    repeat split. f_equal. f_equal. unfold answer. simpl. exact Hrw.
Qed.

(** X9.  Requests never change what is published.  However many requests
    are served in a row, cancelled or not, with or without settings, the
    output buffer, the store and the stream are afterwards as before, and
    every request is answered from the same payload: the published bytes
    with status 200, or nothing when the request was cancelled or the
    connection refused the write. *)
Theorem requests_leave_output (enc : Encoder) (acquiring : bool)
    (reqs : list (HandlerEnv * Request)) (w : World) :
  let run := serve enc acquiring (map (fun q => Serve q.1 q.2) reqs) w [] in
  run.2 = map (answer (bytes_of (mem w) (front (out (src w))))) reqs /\
  out (src run.1) = out (src w) /\
  mem run.1 = mem w /\
  stream run.1 = stream w.
Proof. apply (serve_requests enc acquiring reqs w []). Qed.

(** X10.  A committed frame is what the next requests get.  After an
    iteration that pops a Success buffer and encodes it without error into
    an empty back buffer, every request served before the next iteration
    is answered with exactly the bytes the encoder wrote for that frame. *)
Theorem commit_then_read (enc : Encoder) (f : Frame) (i : nat) (rest : list nat)
    (written : list byte) (reqs : list (HandlerEnv * Request)) (w : World) :
  pool (stream w) = i :: rest ->
  fr_status f = Success ->
  Encode enc (mkGray (fr_data f) (width (src w)) (height (src w))) = (written, None) ->
  back (out (src w)) = [] ->
  (serve enc true (Tick (Some f) :: map (fun q => Serve q.1 q.2) reqs) w []).2
  = map (answer written) reqs.
Proof.
  intros Hpool Hst Henc Hback. simpl.
  destruct (serve_requests enc true reqs (cameraIter enc (Some f) w) []) as (-> & _).
  simpl. f_equal.
  unfold cameraIter, popBuffer, TimeoutPopBuffer. rewrite Hpool. simpl. rewrite Hst.
  case_decide; [done|]. unfold encodeToBack. cbn -[commit]. rewrite Henc. cbn -[commit].
  match goal with |- context [commit ?w0] =>
    destruct (commit_spec w0) as (l & _ & Hfront & Hl & _) end.
  cbn -[commit] in *. unfold bytes_of. rewrite Hfront, Hl, Hback. done.
Qed.

Lemma commit_then_read_witness :
  (serve signatureEncoder true
     (Tick (Some (mkFrame Success [x01; x02]))
      :: map (fun q => Serve q.1 q.2) [(quietDevice, get []); (quietDevice, cancelled)])
     started []).2
  = [mkResponseWriter (Some 200) None [x89; x50; x01; x02]; newResponse].
Proof.
  exact (commit_then_read signatureEncoder (mkFrame Success [x01; x02]) 0 [1]
           [x89; x50; x01; x02] [(quietDevice, get []); (quietDevice, cancelled)]
           started eq_refl eq_refl eq_refl eq_refl).
Defined.

End requests.

(** ** [main] of the live server, from start to signal *)

Section live_main.

Import Live Samples Scenarios.

Lemma count_ev_cons p e tr :
  count_ev p (e :: tr) = (if p e then 1 else 0) + count_ev p tr.
Proof. unfold count_ev. simpl. by destruct (p e). Qed.

Lemma requestEvents_quiet (p : event -> bool) env r w :
  p = is_start \/ p = is_stop \/ p = is_close \/ p = is_pop ->
  count_ev p (requestEvents env r w) = 0.
Proof.
  intros Hp. unfold requestEvents, writeEvents, gainEvents, exposureEvents.
  destruct (req_done r).
  { by destruct Hp as [->|[->|[->| ->]]]. }
  destruct (negb _ && float_ne _ (gain (src w)));
    destruct (negb _ && float_ne _ (exposure (src w)));
    destruct (writeErr env) as [e|];
    by destruct Hp as [->|[->|[->| ->]]].
Qed.

Lemma answer_ok payload q :
  final_status (answer payload q) = StatusOK /\ rw_contentType (answer payload q) = None.
Proof. unfold answer. by destruct (req_done q.2), (writeErr q.1). Qed.

(** The two goroutines until the signal: the events they add and the
    responses they give. *)
Lemma serve_counts (enc : Encoder) (acquiring : bool) (steps : list Step) :
  forall (w : World) (resps : list ResponseWriter),
  exists evs new,
    trace (serve enc acquiring steps w resps).1 = trace w ++ evs /\
    (serve enc acquiring steps w resps).2 = resps ++ new /\
    length new = length (requests_of steps) /\
    Forall (fun rw => final_status rw = StatusOK /\ rw_contentType rw = None) new /\
    count_ev is_start evs = 0 /\ count_ev is_stop evs = 0 /\ count_ev is_close evs = 0 /\
    (if acquiring then count_ev is_pop evs + length (requests_of steps) = length steps
     else count_ev is_pop evs = 0).
Proof.
  induction steps as [|[ready|env r] steps IH]; intros w resps.
  - exists [], []. simpl. rewrite !app_nil_r. by destruct acquiring.
  - simpl. destruct acquiring.
    + destruct (cameraIter_events enc ready w) as (evs1 & Ht1 & Hl1 & Hp1 & _).
      destruct (IH (cameraIter enc ready w) resps)
        as (evs & new & Ht & Hr & Hlen & Hall & Hs & Hst & Hc & Hp).
      exists (evs1 ++ evs), new. rewrite Ht, Ht1, Hr, <- app_assoc, !count_ev_app.
      rewrite Hs, Hst, Hc, Hp1.
      rewrite !(count_loop _ evs1) by (done || by intros []).
      unfold requests_of in *. simpl. repeat split; try done. lia.
    + destruct (IH w resps) as (evs & new & Ht & Hr & Hlen & Hall & Hs & Hst & Hc & Hp).
      by exists evs, new.
  - simpl.
    destruct (servePNG_spec env r newResponse w) as (_ & _ & _ & Htr & Hrw).
    destruct (servePNG env r newResponse w) as [rw w1]. simpl in *.
    destruct (IH w1 (resps ++ [rw]))
      as (evs & new & Ht & Hr & Hlen & Hall & Hs & Hst & Hc & Hp).
    exists (requestEvents env r w ++ evs), (rw :: new).
    rewrite Ht, Htr, Hr, <- !app_assoc, !count_ev_app.
    rewrite !requestEvents_quiet by auto. rewrite Hs, Hst, Hc.
    unfold requests_of in *. simpl. repeat split; try done.
    + by rewrite Hlen.
    + constructor; [|done]. rewrite Hrw.
      apply (answer_ok (bytes_of (mem w) (front (out (src w)))) (env, r)).
    + destruct acquiring; simpl; lia.
Qed.

(** While nothing is published and no camera thread runs, every answer is
    empty. *)
Lemma serve_idle (enc : Encoder) (steps : list Step) :
  forall (w : World) (resps : list ResponseWriter),
  front (out (src w)) = None ->
  exists new,
    (serve enc false steps w resps).2 = resps ++ new /\
    Forall (fun rw => rw_body rw = []) new.
Proof.
  induction steps as [|[ready|env r] steps IH]; intros w resps Hfront; simpl.
  - exists []. by rewrite app_nil_r.
  - by apply IH.
  - destruct (servePNG_spec env r newResponse w) as (_ & _ & Ho & _ & Hrw).
    destruct (servePNG env r newResponse w) as [rw w1]. simpl in *.
    destruct (IH w1 (resps ++ [rw])) as (new & Hr & Hall).
    { by rewrite Ho. }
    exists (rw :: new). rewrite Hr, <- app_assoc. split; [done|].
    constructor; [|done]. rewrite Hrw, Hfront. simpl.
    by destruct (req_done r), (writeErr env).
Qed.

(** X11.  [main] aborts on the device count and on nothing else.  It ends
    in [logger.Fatal] exactly when [GetNumDevices] fails or counts no
    device; the diagnostic is that error or the no-devices message, it is
    the only thing that happened, and no request was answered.  In every
    other case [main] runs until the signal and returns. *)
Theorem main_aborts_on_device_count_only (env : MainEnv) :
  match exit (main env) with
  | Fatal d =>
      (numDevicesErr env = Some d \/
       (numDevicesErr env = None /\ numDevices env = 0 /\
        d = "No devices found. Exiting.")) /\
      responses (main env) = [] /\
      trace (world (main env)) = [EvLog d]
  | Quit => numDevicesErr env = None /\ numDevices env <> 0
  end.
Proof.
  unfold main. destruct (numDevicesErr env) as [e|]; simpl.
  { split; [by left | done]. }
  destruct (Nat.eqb (numDevices env) 0) eqn:Hn; simpl.
  { apply Nat.eqb_eq in Hn. split; [by right | done]. }
  apply Nat.eqb_neq in Hn.
  destruct (cameraStart _ _) as [err w]. by destruct (serve _ _ _ _ _).
Qed.

(** X12.  Once a device has been counted, every request of the run gets
    one response, in order, each with status 200 and without an error
    content type, whatever fails in the camera, the device or the
    connection. *)
Theorem main_answers_every_request (env : MainEnv) :
  numDevicesErr env = None ->
  numDevices env <> 0 ->
  length (responses (main env)) = length (requests_of (schedule env)) /\
  Forall (fun rw => final_status rw = StatusOK /\ rw_contentType rw = None)
         (responses (main env)).
Proof.
  intros He Hn. unfold main. rewrite He. apply Nat.eqb_neq in Hn. rewrite Hn.
  destruct (cameraStart _ _) as [err w].
  match goal with |- context [serve ?e ?a ?s ?w0 []] =>
    destruct (serve_counts e a s w0 []) as (evs & new & _ & Hr & Hlen & Hall & _) end.
  destruct (serve _ _ _ _ _) as [w1 resps]. simpl in *. subst resps. done.
Qed.

Lemma main_answers_every_request_witness :
  length (responses (main (noStream threeRequests))) = 3.
Proof.
  assert (Hn : numDevices (noStream threeRequests) <> 0) by discriminate.
  exact (proj1 (main_answers_every_request (noStream threeRequests) eq_refl Hn)).
Defined.

(** X13.  [main] pairs the acquisition calls over a whole run.  Once a
    device has been counted, [StartAcquisition] and [StopAcquisition] are
    each called once when the startup of the camera thread succeeded and
    never when it failed; the stream is closed once exactly when it was
    created; and buffers are popped once per loop iteration of the
    schedule, or never when the startup failed. *)
Theorem main_pairs_acquisition (env : MainEnv) :
  numDevicesErr env = None ->
  numDevices env <> 0 ->
  let tr := trace (world (main env)) in
  count_ev is_start tr = count_ev is_stop tr /\
  count_ev is_start tr = match startupError (streamEnv env) with Some _ => 0 | None => 1 end /\
  count_ev is_close tr = match createStreamErr (streamEnv env) with Some _ => 0 | None => 1 end /\
  match startupError (streamEnv env) with
  | Some _ => count_ev is_pop tr = 0
  | None => count_ev is_pop tr + length (requests_of (schedule env)) = length (schedule env)
  end.
Proof.
  intros He Hn tr. subst tr. unfold main. rewrite He.
  apply Nat.eqb_neq in Hn. rewrite Hn.
  set (w0 := emit _ (emit _ (emit _ (newWorld env)))).
  destruct (cameraStart_spec (streamEnv env) w0) as (Herr & _ & _ & evs0 & Ht0 & Hcase).
  destruct (cameraStart (streamEnv env) w0) as [err w1]. simpl in Herr, Ht0, Hcase.
  subst err.
  match goal with |- context [serve ?e ?a ?s ?wa []] =>
    destruct (serve_counts e a s wa []) as (evs & new & Ht & _ & _ & _ & Hs & Hst & Hc & Hp) end.
  destruct (serve _ _ _ _ _) as [w2 resps]. simpl in Ht.
  destruct (startupError (streamEnv env)) as [e|] eqn:Hse; simpl.
  - destruct Hcase as (H1 & H2 & H3 & H4). simpl in Hp.
    rewrite !count_ev_app, Ht, !count_ev_app, Ht0, !count_ev_cons.
    rewrite H1, H2, H3, H4, Hs, Hst, Hc, Hp.
    unfold count_ev. simpl. repeat split; lia.
  - destruct Hcase as [-> Hpool]. simpl in Hp.
    assert (Hcs : createStreamErr (streamEnv env) = None).
    { unfold startupError in Hse. by destruct (createStreamErr (streamEnv env)). }
    unfold cameraStop. simpl.
    rewrite !count_ev_app, Ht, !count_ev_app, Ht0, !count_ev_cons.
    rewrite Hs, Hst, Hc, Hcs.
    unfold count_ev in *. simpl. repeat split; lia.
Qed.

Lemma main_pairs_acquisition_witness :
  count_ev is_start (trace (world (main (mainEnv oneFrameOneRequest)))) = 1 /\
  count_ev is_stop (trace (world (main (mainEnv oneFrameOneRequest)))) = 1.
Proof.
  assert (Hn : numDevices (mainEnv oneFrameOneRequest) <> 0) by discriminate.
  destruct (main_pairs_acquisition (mainEnv oneFrameOneRequest) eq_refl Hn)
    as (H1 & H2 & _).
  split; [exact H2 | rewrite <- H1; exact H2].
Defined.

(** X14.  When the startup of the camera thread fails, [main] serves the
    empty payload until the signal: every response of the run has an empty
    body. *)
Theorem failed_camera_serves_empty (env : MainEnv) (e : string) :
  numDevicesErr env = None ->
  numDevices env <> 0 ->
  startupError (streamEnv env) = Some e ->
  Forall (fun rw => rw_body rw = []) (responses (main env)).
Proof.
  intros He Hn Hse. unfold main. rewrite He.
  apply Nat.eqb_neq in Hn. rewrite Hn.
  set (w0 := emit _ (emit _ (emit _ (newWorld env)))).
  destruct (cameraStart_spec (streamEnv env) w0) as (Herr & Hsrc & _).
  destruct (cameraStart (streamEnv env) w0) as [err w1]. simpl in Herr, Hsrc.
  rewrite Herr, Hse.
  match goal with |- context [serve ?en false ?s ?wa []] =>
    destruct (serve_idle en s wa []) as (new & Hr & Hall) end.
  { simpl. by rewrite Hsrc. }
  destruct (serve _ _ _ _ _) as [w2 resps]. simpl in *. by subst resps.
Qed.

Lemma failed_camera_serves_empty_witness :
  Forall (fun rw => rw_body rw = []) (responses (main (noBuffer oneFrameOneRequest))).
Proof.
  assert (Hn : numDevices (noBuffer oneFrameOneRequest) <> 0) by discriminate.
  exact (failed_camera_serves_empty (noBuffer oneFrameOneRequest)
           "arv-buffer-error: out of memory" eq_refl Hn eq_refl).
Defined.

End live_main.

(** ** The one-shot handler on every path *)

Section one_shot.

Import Samples Scenarios.

Lemma oneShot_failed_reply (cam : OneShot.CameraEnv) (enc : Encoder) :
  device_failed cam ->
  reply_is_error (OneShot.response (OneShot.servePNG cam enc newResponse)).
Proof.
  intros Hfail. unfold OneShot.servePNG.
  set (rw1 := match OneShot.createStreamErr cam with
              | Some e => Error e StatusInternalServerError newResponse
              | None => newResponse
              end).
  set (rw2 := match OneShot.newBufferErr cam with
              | Some e => Error e StatusInternalServerError rw1
              | None => rw1
              end).
  assert (H2 : reply_pending rw2 \/ reply_is_error rw2).
  { subst rw2 rw1.
    destruct (OneShot.createStreamErr cam), (OneShot.newBufferErr cam);
      [ right; apply Error_again, Error_pending
      | right; apply Error_pending
      | right; apply Error_pending
      | left ]; done. }
  destruct (OneShot.openStream cam) as [stream pushed] eqn:Hopen.
  assert (Hst : GetStatus (TimeoutPopBuffer (OneShot.ready cam) stream).1 <> Success).
  { unfold OneShot.openStream in Hopen. unfold device_failed in Hfail.
    destruct (OneShot.createStreamErr cam) as [e1|].
    - injection Hopen as <- _. unfold TimeoutPopBuffer.
      by destruct (OneShot.ready cam).
    - destruct (OneShot.newBufferErr cam) as [e2|].
      + injection Hopen as <- _. unfold TimeoutPopBuffer.
        by destruct (OneShot.ready cam).
      + destruct Hfail as [H|[H|H]]; [done|done|].
        by apply not_success_status. }
  destruct (TimeoutPopBuffer (OneShot.ready cam) stream) as [buffer stream'].
  simpl in Hst. case_decide; [|done]. cbn [OneShot.response].
  destruct H2; [by apply Error_pending | by apply Error_again].
Qed.

Lemma oneShot_good_reply (cam : OneShot.CameraEnv) (enc : Encoder) (f : Frame)
    (rw : ResponseWriter) :
  OneShot.createStreamErr cam = None ->
  OneShot.newBufferErr cam = None ->
  OneShot.ready cam = Some f ->
  fr_status f = Success ->
  let result :=
    Encode enc (mkGray (fr_data f) (OneShot.regionWidth cam) (OneShot.regionHeight cam)) in
  OneShot.response (OneShot.servePNG cam enc rw)
  = match result.1 with [] => rw | _ => Write result.1 rw end /\
  log_lines (OneShot.events (OneShot.servePNG cam enc rw))
  = match result.2 with Some e => [e] | None => [] end.
Proof.
  intros Hc Hn Hr Hs result. subst result.
  unfold OneShot.servePNG, OneShot.openStream.
  rewrite Hc, Hn, Hr. cbn [TimeoutPopBuffer PushBuffer NewBuffer pool app GetStatus
                            buf_status buf_data buf_id GetData].
  rewrite Hs. case_decide; [done|].
  destruct (Encode enc _) as [written [e|]]; done.
Qed.

(** X15.  The one-shot handler answers with an error status exactly when
    the device failed: the reply to a fresh response is 5xx if and only if
    the stream could not be created, the buffer could not be allocated, or
    the pop gave no Success buffer.  What the encoder does never changes
    the status. *)
Theorem oneshot_error_status_iff_device_failed (cam : OneShot.CameraEnv) (enc : Encoder) :
  is_5xx (final_status (OneShot.response (OneShot.servePNG cam enc newResponse))) = true
  <-> device_failed cam.
Proof.
  split.
  - intros H5. unfold device_failed.
    destruct (OneShot.createStreamErr cam) as [e1|] eqn:Hc; [by left|].
    destruct (OneShot.newBufferErr cam) as [e2|] eqn:Hn; [by right; left|].
    destruct (OneShot.ready cam) as [f|] eqn:Hr; [|by right; right].
    destruct (decide (fr_status f = Success)) as [Hs|Hs]; [|by right; right].
    destruct (oneShot_good_reply cam enc f newResponse Hc Hn Hr Hs) as [Hrw _].
    rewrite Hrw in H5.
    set (bs := (Encode enc _).1) in H5. destruct bs; simpl in H5; discriminate.
  - intros Hfail. destruct (oneShot_failed_reply cam enc Hfail) as [Hs _].
    unfold final_status. by rewrite Hs.
Qed.

(** X16.  On a good frame the one-shot handler answers with what the
    encoder wrote: with the stream created, the buffer allocated and a
    Success buffer popped, the body of the reply is exactly the bytes of
    the encoder, the status is 200, no error content type is set, and the
    only log line is the error of the encoder, if it returned one. *)
Theorem oneshot_reply_is_encoding (cam : OneShot.CameraEnv) (enc : Encoder) (f : Frame) :
  OneShot.createStreamErr cam = None ->
  OneShot.newBufferErr cam = None ->
  OneShot.ready cam = Some f ->
  fr_status f = Success ->
  let result :=
    Encode enc (mkGray (fr_data f) (OneShot.regionWidth cam) (OneShot.regionHeight cam)) in
  let reply := OneShot.servePNG cam enc newResponse in
  rw_body (OneShot.response reply) = result.1 /\
  final_status (OneShot.response reply) = StatusOK /\
  rw_contentType (OneShot.response reply) = None /\
  log_lines (OneShot.events reply) = match result.2 with Some e => [e] | None => [] end.
Proof.
  intros Hc Hn Hr Hs result reply. subst result reply.
  destruct (oneShot_good_reply cam enc f newResponse Hc Hn Hr Hs) as [-> ->].
  by destruct (Encode enc _).1.
Qed.

Lemma oneshot_reply_is_encoding_witness :
  rw_body (OneShot.response (OneShot.servePNG goodCamera signatureEncoder newResponse))
  = [x89; x50; x01; x02].
Proof.
  exact (proj1 (oneshot_reply_is_encoding goodCamera signatureEncoder
                  (mkFrame Success [x01; x02]) eq_refl eq_refl eq_refl eq_refl)).
Defined.

(** X17.  The one-shot handler runs its deferred calls on every path.
    Whatever fails, it starts acquisition once, pops once, and ends with
    [StopAcquisition] followed by the close of the stream, each exactly
    once; the only buffer it ever pushes is the new one, the popped buffer
    is not pushed back. *)
Theorem oneshot_deferred_calls (cam : OneShot.CameraEnv) (enc : Encoder)
    (rw : ResponseWriter) :
  exists pre,
    OneShot.events (OneShot.servePNG cam enc rw)
    = pre ++ [EvStopAcquisition; EvStreamClose] /\
    count_ev is_start pre = 1 /\
    count_ev is_stop pre = 0 /\
    count_ev is_close pre = 0 /\
    count_ev is_pop pre = 1 /\
    pushes pre = [(OneShot.openStream cam).2].
Proof.
  unfold OneShot.servePNG.
  destruct (OneShot.openStream cam) as [stream pushed]. simpl.
  destruct (TimeoutPopBuffer (OneShot.ready cam) stream) as [buffer stream'].
  set (pre := [EvSetExposureTime (OneShot.exposureTime cam);
               EvSetGain (OneShot.gain cam); EvPush pushed; EvStartAcquisition;
               EvPop buffer]).
  case_decide.
  - by exists pre.
  - destruct (Encode enc _) as [written [e|]].
    + by exists (pre ++ [EvLog e]).
    + by exists pre.
Qed.

End one_shot.

(** ** Routes of the one-shot server *)

Section routes.

Import OneShotMain.

Lemma list_ascii_append (s1 s2 : string) :
  String.list_ascii_of_string (s1 +:+ s2)
  = String.list_ascii_of_string s1 ++ String.list_ascii_of_string s2.
Proof. induction s1 as [|c s1 IH]; simpl; [done | by rewrite IH]. Qed.

Lemma append_inv_tail (s1 s2 t : string) : s1 +:+ t = s2 +:+ t -> s1 = s2.
Proof.
  intros H. apply (f_equal String.list_ascii_of_string) in H.
  rewrite !list_ascii_append in H. apply app_inv_tail in H.
  rewrite <- (String.string_of_list_ascii_of_string s1),
          <- (String.string_of_list_ascii_of_string s2).
  by rewrite H.
Qed.

Lemma pattern_inj (i j : nat) : pattern i = pattern j -> i = j.
Proof.
  unfold pattern. intros H.
  assert (H' : NilEmpty.string_of_uint (Nat.to_uint i) +:+ ".png"
               = NilEmpty.string_of_uint (Nat.to_uint j) +:+ ".png").
  { cbv [String.append] in H. by injection H. }
  clear H. rename H' into H.
  apply append_inv_tail in H.
  apply (f_equal NilEmpty.uint_of_string) in H.
  rewrite !NilEmpty.usu in H. injection H as H.
  by apply Unsigned.to_uint_inj.
Qed.

Lemma existsb_registered (first count i : nat) :
  first + count <= i ->
  existsb (fun e => String.eqb e.1 (pattern i)) (registered first count) = false.
Proof.
  revert first. induction count as [|count IH]; intros first Hle; [done|].
  unfold registered in *. cbn [seq map existsb fst].
  rewrite IH by lia. rewrite orb_false_r.
  apply String.eqb_neq. intros H%pattern_inj. lia.
Qed.

Lemma handleDevices_spec (count : nat) : forall first i,
  handleDevices count (first + i) (registered first i)
  = Some (registered first (i + count)).
Proof.
  induction count as [|count IH]; intros first i; cbn [handleDevices].
  - by rewrite Nat.add_0_r.
  - unfold Handle. rewrite existsb_registered by lia.
    replace (registered first i ++ [(pattern (first + i), first + i)])
      with (registered first (S i)).
    + replace (S (first + i)) with (first + S i) by lia.
      rewrite IH. f_equal. f_equal. lia.
    + unfold registered. replace (S i) with (i + 1) by lia.
      by rewrite seq_app, map_app.
Qed.

Lemma route_registered (count : nat) : forall first i,
  first <= i < first + count ->
  route (pattern i) (registered first count) = Some i.
Proof.
  induction count as [|count IH]; intros first i Hi; [lia|].
  unfold registered in *. cbn [seq map route].
  destruct (String.eqb (pattern first) (pattern i)) eqn:He.
  - apply String.eqb_eq, pattern_inj in He. by subst.
  - apply IH. apply String.eqb_neq in He.
    assert (first <> i) by (intros ->; done). lia.
Qed.

(** X18.  The one-shot [main] registers one route per device and never
    collides with itself.  With [n] devices counted it registers the
    patterns /0.png to /(n-1).png, in this order, the i-th for the handler
    of camera i; [http.Handle] does not panic, because the patterns of two
    different indices differ; the path of each pattern is routed to the
    handler of its own camera; and the process ends in [log.Fatal] with the
    error of [ListenAndServe]. *)
Theorem oneshot_main_routes (env : MainEnv) :
  numDevicesErr env = None ->
  numDevices env <> 0 ->
  main env = Exited (listenErr env) (registered 0 (numDevices env)) /\
  (forall i j, pattern i = pattern j -> i = j) /\
  (forall i, i < numDevices env ->
     route (pattern i) (registered 0 (numDevices env)) = Some i).
Proof.
  intros He Hn. unfold main. rewrite He.
  apply Nat.eqb_neq in Hn. rewrite Hn.
  pose proof (handleDevices_spec (numDevices env) 0 0) as H.
  change (handleDevices (numDevices env) 0 [] = Some (registered 0 (numDevices env))) in H.
  rewrite H.
  split; [done|]. split; [apply pattern_inj|].
  intros i Hi. apply route_registered. lia.
Qed.

Lemma oneshot_main_routes_witness :
  main Scenarios.twoDevices
  = Exited "listen tcp :8000: bind: address already in use" [("/0.png", 0); ("/1.png", 1)].
Proof.
  assert (Hn : numDevices Scenarios.twoDevices <> 0) by discriminate.
  exact (proj1 (oneshot_main_routes Scenarios.twoDevices eq_refl Hn)).
Defined.

End routes.

(** ** The buffer pool *)

Section pool.

Import EncoderPool.

Lemma run_app (cs1 cs2 : list call) : forall p,
  run (cs1 ++ cs2) p
  = ((run cs1 p).1 ++ (run cs2 (run cs1 p).2).1, (run cs2 (run cs1 p).2).2).
Proof.
  induction cs1 as [|[|x] cs1 IH]; intros p; simpl.
  - by destruct (run cs2 p).
  - rewrite IH. by destruct (run cs1 p).
  - apply IH.
Qed.

Lemma run_slot (cs : list call) : forall p, b (run cs p).2 = lastPut cs (b p).
Proof.
  induction cs as [|[|x] cs IH]; intros p; simpl; [done| |].
  - specialize (IH p). by destruct (run cs p).
  - apply IH.
Qed.

(** X19.  The pool is one slot that [Get] does not empty.  After any
    sequence of calls, a [Get] returns the buffer of the most recent [Put]
    (the initial slot, nil for a new pool, when there was none), however
    many [Get]s came in between, and it leaves the pool as it found it. *)
Theorem pool_get_returns_last_put (cs : list call) (p : pool) :
  (run (cs ++ [CallGet]) p).1 = (run cs p).1 ++ [lastPut cs (b p)] /\
  (run (cs ++ [CallGet]) p).2 = (run cs p).2 /\
  (run (cs ++ [CallGet; CallGet]) p).1
  = (run cs p).1 ++ [lastPut cs (b p); lastPut cs (b p)].
Proof.
  rewrite !run_app. simpl. rewrite run_slot. done.
Qed.

End pool.
